(** * dhs_wow_data: the aggregation and serving code of [website/app.js]

    A shallow embedding of the Express application: the geocode table
    loader ([parseGeocodeLocations]), the aggregator ([processData]), the
    memoising accessor ([getData]) and the three route handlers, together
    with the JavaScript built-ins they call.

    Conventions of the embedding.
    - A JavaScript string is a [string]: the sequence of the UTF-8 bytes of
      the text.  Built-ins that classify characters ([trim], [toLowerCase],
      the regular-expression classes) act on the ASCII range as JavaScript
      does and leave every other byte alone.
    - A JavaScript Number is a binary64 value, [spec_float] at precision 53
      and maximal exponent 1024, with the round-to-nearest-even operations
      of the standard library's [SpecFloat].
    - An object used as a dictionary is the ordered list of its own
      properties, in JavaScript's property order (array-index keys in
      ascending order first, then the other keys in creation order).  Keys
      that name members of [Object.prototype] are outside the model.
    - [undefined] and [null] are [None]. *)

From Stdlib Require Import List String Ascii Bool Arith ZArith Lia.
From Stdlib Require Import Sorted Permutation.
From Stdlib Require Import Floats.SpecFloat.
From Stdlib Require Import Numbers.DecimalString.
Import ListNotations.

Local Open Scope string_scope.
Local Open Scope list_scope.
Local Open Scope nat_scope.

(** ** JavaScript built-ins *)

Module JS.

(** *** Characters *)

Definition code (c : ascii) : nat := nat_of_ascii c.

(** [\s] of a regular expression and the white space of [trim], on the
    ASCII range: TAB, LF, VT, FF, CR and SPACE. *)
Definition isWhiteSpace (c : ascii) : bool :=
  let n := code c in ((9 <=? n) && (n <=? 13)) || (n =? 32).

(** [\d]. *)
Definition isDigit (c : ascii) : bool :=
  let n := code c in (48 <=? n) && (n <=? 57).

(** [.] matches everything but a line terminator. *)
Definition isLineTerminator (c : ascii) : bool :=
  let n := code c in (n =? 10) || (n =? 13).

Definition isDot (c : ascii) : bool := negb (isLineTerminator c).

Definition lowerChar (c : ascii) : ascii :=
  let n := code c in
  if (65 <=? n) && (n <=? 90) then ascii_of_nat (n + 32) else c.

(** *** Strings *)

Fixpoint smap (f : ascii -> ascii) (s : string) : string :=
  match s with
  | EmptyString => EmptyString
  | String c s' => String (f c) (smap f s')
  end.

Fixpoint sfilter (p : ascii -> bool) (s : string) : string :=
  match s with
  | EmptyString => EmptyString
  | String c s' => if p c then String c (sfilter p s') else sfilter p s'
  end.

Fixpoint sforall (p : ascii -> bool) (s : string) : bool :=
  match s with
  | EmptyString => true
  | String c s' => p c && sforall p s'
  end.

(** Truthiness of a string: only the empty string is falsy. *)
Definition truthy (s : string) : bool :=
  match s with EmptyString => false | _ => true end.

(** [s.toLowerCase()]. *)
Definition toLowerCase (s : string) : string := smap lowerChar s.

(** [s.trimStart()], [s.trimEnd()] and [s.trim()]. *)
Fixpoint trimStart (s : string) : string :=
  match s with
  | String c s' => if isWhiteSpace c then trimStart s' else s
  | EmptyString => EmptyString
  end.

Fixpoint trimEnd (s : string) : string :=
  match s with
  | EmptyString => EmptyString
  | String c s' =>
      match trimEnd s' with
      | EmptyString => if isWhiteSpace c then EmptyString else String c EmptyString
      | t => String c t
      end
  end.

Definition trim (s : string) : string := trimEnd (trimStart s).

(** [s.startsWith(p)], returning the rest of [s] after [p]. *)
Fixpoint stripPrefix (p s : string) : option string :=
  match p, s with
  | EmptyString, _ => Some s
  | String a p', String b s' => if Ascii.eqb a b then stripPrefix p' s' else None
  | String _ _, EmptyString => None
  end.

Definition startsWith (p s : string) : bool :=
  match stripPrefix p s with Some _ => true | None => false end.

(** [s.includes(t)]: [t] occurs in [s] at some position. *)
Fixpoint includes (s t : string) : bool :=
  startsWith t s ||
  match s with
  | EmptyString => false
  | String _ s' => includes s' t
  end.

(** [s.split(sep)] for a one-character separator: never empty, the empty
    string splits into one empty piece. *)
Fixpoint split (sep : ascii) (s : string) : list string :=
  match s with
  | EmptyString => [EmptyString]
  | String c s' =>
      if Ascii.eqb c sep then EmptyString :: split sep s'
      else match split sep s' with
           | piece :: rest => String c piece :: rest
           | [] => [String c EmptyString]
           end
  end.

(** [a.join(sep)]. *)
Fixpoint join (sep : string) (l : list string) : string :=
  match l with
  | [] => EmptyString
  | [x] => x
  | x :: rest => (x ++ sep ++ join sep rest)%string
  end.

(** The first [n] characters of [s]. *)
Fixpoint stake (n : nat) (s : string) : string :=
  match n, s with
  | S n', String c s' => String c (stake n' s')
  | _, _ => EmptyString
  end.

(** [a.includes(x)] on an array of strings (SameValueZero is string
    equality there). *)
Definition arrayIncludes (l : list string) (x : string) : bool :=
  existsb (String.eqb x) l.

(** The characters of [s] after the first [n]. *)
Fixpoint sdrop (n : nat) (s : string) : string :=
  match n, s with
  | S n', String _ s' => sdrop n' s'
  | _, _ => s
  end.

(** *** Numbers *)

Definition number : Type := spec_float.

Definition prec : Z := 53.
Definition emax : Z := 1024.

Definition NaN : number := S754_nan.

Definition isNaN (x : number) : bool :=
  match x with S754_nan => true | _ => false end.

Definition isFinite (x : number) : bool :=
  match x with S754_zero _ | S754_finite _ _ _ => true | _ => false end.

(** [x + y] and [x / y]. *)
Definition add (x y : number) : number := SFadd prec emax x y.
Definition div (x y : number) : number := SFdiv prec emax x y.

Definition number_eqb (x y : number) : bool :=
  match x, y with
  | S754_zero a, S754_zero b => Bool.eqb a b
  | S754_infinity a, S754_infinity b => Bool.eqb a b
  | S754_nan, S754_nan => true
  | S754_finite a m e, S754_finite b n f => Bool.eqb a b && Pos.eqb m n && Z.eqb e f
  | _, _ => false
  end.

(** The Number nearest to [(-1)^neg * m * 10^e] for [0 <= m], ties to
    even: the value of a decimal literal. *)
Definition ofDecimal (neg : bool) (m e : Z) : number :=
  match m with
  | Z0 => S754_zero neg
  | _ =>
      if (0 <=? e)%Z then
        binary_normalize prec emax (cond_Zopp neg (m * 10 ^ e)%Z) 0%Z false
      else
        let '(q, e', l) := SFdiv_core_binary prec emax m 0%Z (10 ^ (- e))%Z 0%Z in
        binary_round_aux prec emax neg q e' l
  end.

(** A non-negative integer (a counter) as a Number. *)
Definition ofNat (n : nat) : number := ofDecimal false (Z.of_nat n) 0%Z.

Definition digitVal (c : ascii) : Z := Z.of_nat (code c - 48).

(** The longest run of digits at the head of [s]: the decimal value
    continued from [acc], the length of the run, and what follows it. *)
Fixpoint readDigits (acc : Z) (n : nat) (s : string) : Z * nat * string :=
  match s with
  | String c s' =>
      if isDigit c then readDigits (10 * acc + digitVal c)%Z (S n) s' else (acc, n, s)
  | EmptyString => (acc, n, s)
  end.

Definition readSign (s : string) : bool * string :=
  match s with
  | String "-" s' => (true, s')
  | String "+" s' => (false, s')
  | _ => (false, s)
  end.

(** An exponent part [[eE][+-]?\d+] at the head of [s], or 0 without one. *)
Definition readExponent (s : string) : Z :=
  match s with
  | String c s' =>
      if Ascii.eqb c "e" || Ascii.eqb c "E" then
        let '(neg, s'') := readSign s' in
        let '(v, n, _) := readDigits 0%Z 0 s'' in
        if n =? 0 then 0%Z else if neg then (- v)%Z else v
      else 0%Z
  | EmptyString => 0%Z
  end.

(** [parseFloat(s)]: leading white space is skipped, the longest prefix
    that is a decimal literal ([Infinity], digits with an optional
    fraction and exponent, all optionally signed) is converted, and
    [NaN] is returned when there is no such prefix. *)
Definition parseFloat (s : string) : number :=
  let '(neg, t) := readSign (trimStart s) in
  match stripPrefix "Infinity" t with
  | Some _ => S754_infinity neg
  | None =>
      let '(i, ni, t1) := readDigits 0%Z 0 t in
      let '(m, nf, t2) :=
        match t1 with
        | String "." t1' => readDigits i 0 t1'
        | _ => (i, 0, t1)
        end in
      if ni + nf =? 0 then NaN
      else ofDecimal neg m (readExponent t2 - Z.of_nat nf)%Z
  end.

(** The decimal digits of a non-negative integer. *)
Definition decimal (n : Z) : string :=
  NilEmpty.string_of_uint (N.to_uint (Z.to_N n)).

Fixpoint zeros (n : nat) : string :=
  match n with
  | O => EmptyString
  | S n' => String "0" (zeros n')
  end.

(** The digits of [n] with a point before the last [d] of them, padded
    with zeros on the left to at least one digit before the point. *)
Definition fixedDigits (n : Z) (d : nat) : string :=
  let m := decimal n in
  if d =? 0 then m
  else
    let m' := (zeros (d + 1 - String.length m) ++ m)%string in
    let k := String.length m' in
    (stake (k - d) m' ++ "." ++ sdrop (k - d) m')%string.

(** The integer nearest to [m * 2^e * 10^d], the larger one on a tie. *)
Definition scaledRound (m : positive) (e : Z) (d : nat) : Z :=
  let p := (10 ^ Z.of_nat d)%Z in
  if (0 <=? e)%Z then (Zpos m * 2 ^ e * p)%Z
  else ((2 * (Zpos m * p) + 2 ^ (- e)) / 2 ^ (1 - e))%Z.

(** [10^21 <= m * 2^e]. *)
Definition atLeast1e21 (m : positive) (e : Z) : bool :=
  if (0 <=? e)%Z then (10 ^ 21 <=? Zpos m * 2 ^ e)%Z
  else (10 ^ 21 * 2 ^ (- e) <=? Zpos m)%Z.

(** The shortest decimal [s * 10^(n-k)], [s] of [k] digits, that converts
    back to [x], where [X] is the (integer) value of [x] and [n0] its
    number of digits; the nearer to [X] of two such, the even one on a
    tie.  Returns [(s, n)]. *)
Fixpoint shortestDigits (fuel : nat) (k : Z) (x : number) (X n0 : Z) : Z * Z :=
  let p := (10 ^ (n0 - k))%Z in
  let lo := (X / p)%Z in
  let hi := (lo + 1)%Z in
  let norm (s : Z) := if (s =? 10 ^ k)%Z then ((10 ^ (k - 1))%Z, (n0 + 1)%Z) else (s, n0) in
  match fuel with
  | O => norm lo
  | S fuel' =>
      let okLo := number_eqb (ofDecimal false lo (n0 - k)) x in
      let okHi := number_eqb (ofDecimal false hi (n0 - k)) x in
      match okLo, okHi with
      | true, false => norm lo
      | false, true => norm hi
      | true, true =>
          match (X - lo * p ?= hi * p - X)%Z with
          | Lt => norm lo
          | Gt => norm hi
          | Eq => if Z.even lo then norm lo else norm hi
          end
      | false, false => shortestDigits fuel' (k + 1)%Z x X n0
      end
  end.

(** [String(x)] for a finite [x = m * 2^e >= 10^21]: exponential
    notation over the shortest digits. *)
Definition toStringLarge (m : positive) (e : Z) : string :=
  let X := (Zpos m * 2 ^ e)%Z in
  let n0 := Z.of_nat (String.length (decimal X)) in
  let '(s, n) := shortestDigits 17 1%Z (S754_finite false m e) X n0 in
  let ds := decimal s in
  let ex := decimal (n - 1) in
  match ds with
  | String c EmptyString => (ds ++ "e+" ++ ex)%string
  | String c rest => (String c ("." ++ rest) ++ "e+" ++ ex)%string
  | EmptyString => ("e+" ++ ex)%string
  end.

(** [x.toFixed(d)]. *)
Definition toFixed (x : number) (d : nat) : string :=
  match x with
  | S754_nan => "NaN"
  | S754_infinity neg => if neg then "-Infinity" else "Infinity"
  | S754_zero _ => fixedDigits 0%Z d
  | S754_finite neg m e =>
      ((if neg then "-" else "") ++
       (if atLeast1e21 m e then toStringLarge m e
        else fixedDigits (scaledRound m e d) d))%string
  end.

(** *** Objects used as dictionaries *)

Module Obj.

Section Dict.
Context {V : Type}.

(** The own properties, in property order. *)
Definition t : Type := list (string * V).

Definition empty : t := [].

(** [o[k]]: [None] is [undefined]. *)
Fixpoint get (k : string) (o : t) : option V :=
  match o with
  | [] => None
  | (k', v) :: o' => if String.eqb k' k then Some v else get k o'
  end.

(** Assignment to a property that exists keeps its place. *)
Fixpoint update (k : string) (v : V) (o : t) : t :=
  match o with
  | [] => []
  | (k', v') :: o' =>
      if String.eqb k' k then (k', v) :: o' else (k', v') :: update k v o'
  end.

(** An array index is the canonical decimal form of an integer below
    [2^32 - 1]. *)
Definition arrayIndex (k : string) : option Z :=
  match k with
  | EmptyString => None
  | String c rest =>
      if JS.sforall JS.isDigit k && (negb (Ascii.eqb c "0") || negb (JS.truthy rest)) then
        let '(v, _, _) := JS.readDigits 0%Z 0 k in
        if (v <? 2 ^ 32 - 1)%Z then Some v else None
      else None
  end.

(** A new array-index key goes before the first key that is a larger
    index or no index at all. *)
Fixpoint insertIndex (i : Z) (k : string) (v : V) (o : t) : t :=
  match o with
  | [] => [(k, v)]
  | (k', v') :: o' =>
      match arrayIndex k' with
      | Some j => if (i <? j)%Z then (k, v) :: o else (k', v') :: insertIndex i k v o'
      | None => (k, v) :: o
      end
  end.

(** [o[k] = v]. *)
Definition set (k : string) (v : V) (o : t) : t :=
  match get k o with
  | Some _ => update k v o
  | None =>
      match arrayIndex k with
      | Some i => insertIndex i k v o
      | None => o ++ [(k, v)]
      end
  end.

(** [Object.entries(o)], [Object.keys(o)] and [Object.values(o)]. *)
Definition entries (o : t) : list (string * V) := o.
Definition keys (o : t) : list string := map fst o.
Definition values (o : t) : list V := map snd o.
End Dict.

Arguments t : clear implicits.

End Obj.

(** *** Arrays *)

Section Sort.
Context {A : Type}.
Variable cmp : A -> A -> Z.

(** [x] came before every element of [l]; it stays before the first
    element it does not have to follow. *)
Fixpoint sortInsert (x : A) (l : list A) : list A :=
  match l with
  | [] => [x]
  | y :: l' => if (cmp x y <=? 0)%Z then x :: l else y :: sortInsert x l'
  end.

(** [a.sort(cmp)] for a consistent comparator: the stable sort. *)
Fixpoint sortBy (l : list A) : list A :=
  match l with
  | [] => []
  | x :: l' => sortInsert x (sortBy l')
  end.
End Sort.

(** [a.sort()] on strings: ascending by code units (by bytes here, which
    is the same order except between astral characters and the end of the
    basic plane). *)
Definition compareStrings (a b : string) : Z :=
  match String.compare a b with Lt => (-1)%Z | Eq => 0%Z | Gt => 1%Z end.

(** *** Regular expressions

    Matchers in continuation-passing style, as in the language
    specification: a matcher takes what must match after it and the input
    at the current position; alternatives are tried in priority order and
    the first overall success is returned. *)

Module RegExp.

Section Matchers.
Context {R : Type}.

Definition cont : Type := string -> option R.
Definition matcher : Type := cont -> cont.

(** A literal. *)
Definition lit (p : string) : matcher := fun k s =>
  match JS.stripPrefix p s with
  | Some rest => k rest
  | None => None
  end.

(** [c*] for a character class, greedy. *)
Fixpoint star (p : ascii -> bool) (k : cont) (s : string) : option R :=
  match s with
  | String c s' =>
      if p c then
        match star p k s' with
        | Some r => Some r
        | None => k s
        end
      else k s
  | EmptyString => k s
  end.

(** [c+], greedy. *)
Definition plus (p : ascii -> bool) : matcher := fun k s =>
  match s with
  | String c s' => if p c then star p k s' else None
  | EmptyString => None
  end.

(** [c?] for one character, greedy. *)
Definition opt (c : ascii) : matcher := fun k s =>
  match s with
  | String c' s' =>
      if Ascii.eqb c c' then
        match k s' with
        | Some r => Some r
        | None => k s
        end
      else k s
  | EmptyString => k s
  end.

(** [c*?] and [c+?]: lazy. *)
Fixpoint lazyStar (p : ascii -> bool) (k : cont) (s : string) : option R :=
  match k s with
  | Some r => Some r
  | None =>
      match s with
      | String c s' => if p c then lazyStar p k s' else None
      | EmptyString => None
      end
  end.

Definition lazyPlus (p : ascii -> bool) : matcher := fun k s =>
  match s with
  | String c s' => if p c then lazyStar p k s' else None
  | EmptyString => None
  end.

(** A capturing group: the continuation also receives the text the
    group matched. *)
Definition group (m : matcher) (k : string -> cont) : cont := fun s =>
  m (fun rest => k (JS.stake (String.length s - String.length rest) s) rest) s.
End Matchers.

End RegExp.

End JS.


(** ** The pseudo-list fields *)

(** The class [[\[\]']] of the two [replace] calls. *)
Definition isBracketOrQuote (c : ascii) : bool :=
  Ascii.eqb c "[" || Ascii.eqb c "]" || Ascii.eqb c "'".

(** [field.replace(/[\[\]']/g, '').split(',').map(c => c.trim()).filter(c => c)]
    under the guard [if (field)]; an absent or empty field leaves the
    initial [[]]. *)
Definition parsePseudoList (field : option string) : list string :=
  match field with
  | Some s =>
      if JS.truthy s then
        filter JS.truthy
          (map JS.trim (JS.split "," (JS.sfilter (fun c => negb (isBracketOrQuote c)) s)))
      else []
  | None => []
  end.


(** ** The geocode table loader *)

Record Coord : Type := { lat : JS.number; lng : JS.number }.

(** The glyph that opens the regular expression, byte for byte as the
    literal is stored in [app.js] (C3 A2, C5 93, E2 80 9C). *)
Definition tick : string :=
  String (ascii_of_nat 195) (String (ascii_of_nat 162)
  (String (ascii_of_nat 197) (String (ascii_of_nat 147)
  (String (ascii_of_nat 226) (String (ascii_of_nat 128)
  (String (ascii_of_nat 156) EmptyString)))))).

(** One result of [regex.exec]: the three captures. *)
Record GeoMatch : Type := { m1 : string; m2 : string; m3 : string }.

(** The body [-?\d+\.?\d* ] of the two coordinate groups. *)
Definition coordinateRe {R : Type} : @JS.RegExp.matcher R := fun k =>
  JS.RegExp.opt "-" (JS.RegExp.plus JS.isDigit (JS.RegExp.opt "." (JS.RegExp.star JS.isDigit k))).

(** The regular expression of line 23 tried at the head of the input:
    the glyph, [\s* ], the lazy group [.+?], a colon, [\s* ], an opening
    parenthesis, a coordinate group, a comma, [\s* ], a coordinate group
    and a closing parenthesis.  Returns the captures and the input after
    the match. *)
Definition geocodeRegex : string -> option (GeoMatch * string) :=
  JS.RegExp.lit tick (
  JS.RegExp.star JS.isWhiteSpace (
  JS.RegExp.group (JS.RegExp.lazyPlus JS.isDot) (fun g1 =>
  JS.RegExp.lit ":" (
  JS.RegExp.star JS.isWhiteSpace (
  JS.RegExp.lit "(" (
  JS.RegExp.group coordinateRe (fun g2 =>
  JS.RegExp.lit "," (
  JS.RegExp.star JS.isWhiteSpace (
  JS.RegExp.group coordinateRe (fun g3 =>
  JS.RegExp.lit ")" (fun rest =>
  Some ({| m1 := g1; m2 := g2; m3 := g3 |}, rest)))))))))))).

(** [regex.exec(content)] from the current [lastIndex]: the leftmost
    match in the rest of the input. *)
Fixpoint exec (s : string) : option (GeoMatch * string) :=
  match geocodeRegex s with
  | Some r => Some r
  | None =>
      match s with
      | String _ s' => exec s'
      | EmptyString => None
      end
  end.

Definition storeMatch (locations : JS.Obj.t Coord) (m : GeoMatch) : JS.Obj.t Coord :=
  let location := JS.trim (m1 m) in
  let lat := JS.parseFloat (m2 m) in
  let lng := JS.parseFloat (m3 m) in
  JS.Obj.set (JS.toLowerCase location) {| lat := lat; lng := lng |} locations.

(** The [while ((match = regex.exec(content)) !== null)] loop; every
    round consumes input, so [fuel] beyond the length of the input is
    never used up. *)
Fixpoint execLoop (fuel : nat) (s : string) (locations : JS.Obj.t Coord)
  : JS.Obj.t Coord :=
  match fuel with
  | O => locations
  | S fuel' =>
      match exec s with
      | Some (m, rest) => execLoop fuel' rest (storeMatch locations m)
      | None => locations
      end
  end.

(** [parseGeocodeLocations()], as a function of the text of
    [geocode_locations.txt]. *)
Definition parseGeocodeLocations (content : string) : JS.Obj.t Coord :=
  execLoop (S (String.length content)) content JS.Obj.empty.

(** ** The aggregator *)

(** A row of [transformed_df.csv] as [csv-parse] returns it with
    [columns: true]: the columns the program reads; [None] when the header
    has no such column. *)
Record CsvRecord : Type := {
  ARRESTED : option string;
  CRIME_CATEGORIES : option string;
  CONVICTED_OF : option string;
  PICTURE_LOCAL : option string;
  ID : option string;
  NAME : option string;
  COUNTRY : option string;
  GANG_AFFILIATION : option string;
  DEEPFACE_age : option string;
  DEEPFACE_gender_dominant : option string;
  DEEPFACE_race_dominant : option string;
  DEEPFACE_emotion_dominant : option string
}.

(** The derived objects.  Field names are the source's, except where two
    records would share one: the [lat] and [lng] of a group are
    [group_lat] and [group_lng], the [categories] of the result is
    [dataCategories], and the [totalMen] and [totalWomen] of the
    statistics are [statsTotalMen] and [statsTotalWomen]. *)
Record Person : Type := {
  id : option string;
  name : option string;
  country : option string;
  convictions : list string;
  categories : list string;
  gang : string;
  mugshot : string;
  age : option JS.number;
  gender : string;
  race : string;
  emotion : string
}.

Record LocationGroup : Type := {
  group_lat : JS.number;
  group_lng : JS.number;
  location : string;
  people : list Person
}.

Record Stats : Type := {
  totalRecords : nat;
  statsTotalMen : nat;
  statsTotalWomen : nat;
  avgAge : string;
  topCountries : list (string * nat);
  topCategories : list (string * nat);
  topGangs : list (string * nat);
  raceDistribution : list (string * nat)
}.

Record Data : Type := {
  locations : list LocationGroup;
  dataCategories : list string;
  stats : Stats
}.

(** [field || '']. *)
Definition orEmpty (field : option string) : string :=
  match field with Some s => s | None => "" end.

(** The truthiness test [if (field)] on a field. *)
Definition present (field : option string) : bool :=
  match field with Some s => JS.truthy s | None => false end.

(** [parseFloat(field)]; an absent field is the text [undefined]. *)
Definition parseFloatField (field : option string) : JS.number :=
  JS.parseFloat (match field with Some s => s | None => "undefined" end).

(** The default coordinate, [{ lat: 39.8283, lng: -98.5795 }]. *)
Definition defaultCoords : Coord :=
  {| lat := JS.ofDecimal false 398283 (-4);
     lng := SFopp (JS.ofDecimal false 985795 (-4)) |}.

(** The [for ... of Object.entries(locations)] scan with its [break]. *)
Fixpoint partialMatch (arrestedLower : string) (entries : list (string * Coord))
  : option Coord :=
  match entries with
  | [] => None
  | (key, value) :: entries' =>
      if JS.includes arrestedLower key || JS.includes key arrestedLower
      then Some value
      else partialMatch arrestedLower entries'
  end.

(** Lines 65-82: the coordinates of a record. *)
Definition resolveCoords (locations : JS.Obj.t Coord) (record : CsvRecord) : Coord :=
  let arrested := orEmpty (ARRESTED record) in
  let arrestedLower := JS.toLowerCase arrested in
  match JS.Obj.get arrestedLower locations with
  | Some coords => coords
  | None =>
      match partialMatch arrestedLower (JS.Obj.entries locations) with
      | Some coords => coords
      | None => defaultCoords
      end
  end.

(** [path.basename(p)] (POSIX): the part after the last slash, trailing
    slashes dropped. *)
Fixpoint dropTrailingSlashes (p : string) : string :=
  match p with
  | EmptyString => EmptyString
  | String c p' =>
      match dropTrailingSlashes p' with
      | EmptyString => if Ascii.eqb c "/" then EmptyString else String c EmptyString
      | t => String c t
      end
  end.

Fixpoint afterLastSlash (p : string) : string :=
  match p with
  | EmptyString => EmptyString
  | String c p' =>
      if JS.includes p' "/" then afterLastSlash p'
      else if Ascii.eqb c "/" then p' else p
  end.

Definition basename (p : string) : string := afterLastSlash (dropTrailingSlashes p).

(** [encodeURIComponent(s)]: letters, digits and [-_.!~*'()] stay, every
    other byte becomes [%XX]. *)
Definition isUnreserved (c : ascii) : bool :=
  let n := JS.code c in
  ((65 <=? n) && (n <=? 90)) || ((97 <=? n) && (n <=? 122)) || JS.isDigit c
  || JS.includes "-_.!~*'()" (String c EmptyString).

Definition hexDigit (n : nat) : ascii :=
  if n <? 10 then ascii_of_nat (48 + n) else ascii_of_nat (55 + n).

Fixpoint encodeURIComponent (s : string) : string :=
  match s with
  | EmptyString => EmptyString
  | String c s' =>
      if isUnreserved c then String c (encodeURIComponent s')
      else
        String "%" (String (hexDigit (JS.code c / 16))
          (String (hexDigit (JS.code c mod 16)) (encodeURIComponent s')))
  end.

Definition mugshotPath (record : CsvRecord) : string :=
  if present (PICTURE_LOCAL record)
  then ("/mugshots/" ++ encodeURIComponent (basename (orEmpty (PICTURE_LOCAL record))))%string
  else "".

(** Line 116: the key of the group of a coordinate. *)
Definition locationKey (coords : Coord) : string :=
  (JS.toFixed (lat coords) 4 ++ "," ++ JS.toFixed (lng coords) 4)%string.

(** Lines 126-138: the object pushed for a record. *)
Definition mkPerson (record : CsvRecord) : Person :=
  {| id := ID record;
     name := NAME record;
     country := COUNTRY record;
     convictions := parsePseudoList (CONVICTED_OF record);
     categories := parsePseudoList (CRIME_CATEGORIES record);
     gang := orEmpty (GANG_AFFILIATION record);
     mugshot := mugshotPath record;
     age := if present (DEEPFACE_age record)
            then Some (JS.parseFloat (orEmpty (DEEPFACE_age record)))
            else None;
     gender := orEmpty (DEEPFACE_gender_dominant record);
     race := orEmpty (DEEPFACE_race_dominant record);
     emotion := orEmpty (DEEPFACE_emotion_dominant record) |}.

(** The variables [processData] declares before its loop. *)
Record Acc : Type := {
  locationGroups : JS.Obj.t LocationGroup;
  allCategories : list string;
  totalMen : nat;
  totalWomen : nat;
  totalWithAge : nat;
  totalAge : JS.number;
  countryCounts : JS.Obj.t nat;
  gangCounts : JS.Obj.t nat;
  categoryCounts : JS.Obj.t nat;
  raceCounts : JS.Obj.t nat
}.

Definition initialAcc : Acc :=
  {| locationGroups := JS.Obj.empty;
     allCategories := [];
     totalMen := 0;
     totalWomen := 0;
     totalWithAge := 0;
     totalAge := S754_zero false;
     countryCounts := JS.Obj.empty;
     gangCounts := JS.Obj.empty;
     categoryCounts := JS.Obj.empty;
     raceCounts := JS.Obj.empty |}.

(** [counts[k] = (counts[k] || 0) + 1]. *)
Definition increment (k : string) (counts : JS.Obj.t nat) : JS.Obj.t nat :=
  JS.Obj.set k (match JS.Obj.get k counts with Some n => n | None => 0 end + 1) counts.

(** [set.add(x)]: a [Set] keeps insertion order. *)
Definition setAdd (x : string) (s : list string) : list string :=
  if existsb (String.eqb x) s then s else s ++ [x].

(** Lines 117-126: create the group if there is none, then push. *)
Definition pushPerson (coords : Coord) (arrested : string) (p : Person)
    (groups : JS.Obj.t LocationGroup) : JS.Obj.t LocationGroup :=
  let key := locationKey coords in
  let groups' :=
    match JS.Obj.get key groups with
    | Some _ => groups
    | None =>
        JS.Obj.set key
          {| group_lat := lat coords; group_lng := lng coords;
             location := arrested; people := [] |} groups
    end in
  match JS.Obj.get key groups' with
  | Some g =>
      JS.Obj.set key
        {| group_lat := group_lat g; group_lng := group_lng g;
           location := location g; people := people g ++ [p] |} groups'
  | None => groups'
  end.

(** The body of [records.forEach]. *)
Definition processRecord (geo : JS.Obj.t Coord) (acc : Acc) (record : CsvRecord) : Acc :=
  let coords := resolveCoords geo record in
  let person := mkPerson record in
  let gender := DEEPFACE_gender_dominant record in
  let age := parseFloatField (DEEPFACE_age record) in
  let withAge := negb (JS.isNaN age) in
  {| locationGroups :=
       pushPerson coords (orEmpty (ARRESTED record)) person (locationGroups acc);
     allCategories := fold_left (fun s cat => setAdd cat s) (categories person) (allCategories acc);
     totalMen :=
       if match gender with Some g => String.eqb g "Man" | None => false end
       then totalMen acc + 1 else totalMen acc;
     totalWomen :=
       if match gender with Some g => String.eqb g "Man" | None => false end
       then totalWomen acc
       else if match gender with Some g => String.eqb g "Woman" | None => false end
       then totalWomen acc + 1 else totalWomen acc;
     totalWithAge := if withAge then totalWithAge acc + 1 else totalWithAge acc;
     totalAge := if withAge then JS.add (totalAge acc) age else totalAge acc;
     countryCounts :=
       if present (COUNTRY record)
       then increment (orEmpty (COUNTRY record)) (countryCounts acc)
       else countryCounts acc;
     gangCounts :=
       if present (GANG_AFFILIATION record)
          && JS.truthy (JS.trim (orEmpty (GANG_AFFILIATION record)))
       then increment (orEmpty (GANG_AFFILIATION record)) (gangCounts acc)
       else gangCounts acc;
     categoryCounts :=
       fold_left (fun counts cat => increment cat counts) (categories person) (categoryCounts acc);
     raceCounts :=
       if present (DEEPFACE_race_dominant record)
          && JS.truthy (JS.trim (orEmpty (DEEPFACE_race_dominant record)))
       then increment (orEmpty (DEEPFACE_race_dominant record)) (raceCounts acc)
       else raceCounts acc |}.

(** The comparator [(a, b) => b[1] - a[1]]. *)
Definition byCountDesc (a b : string * nat) : Z :=
  (Z.of_nat (snd b) - Z.of_nat (snd a))%Z.

(** Lines 167-195, from the state the loop leaves. *)
Definition summarize (nRecords : nat) (acc : Acc) : Data :=
  let sortedCategories := JS.sortBy byCountDesc (JS.Obj.entries (categoryCounts acc)) in
  let sortedCountries := firstn 20 (JS.sortBy byCountDesc (JS.Obj.entries (countryCounts acc))) in
  let sortedGangs := firstn 15 (JS.sortBy byCountDesc (JS.Obj.entries (gangCounts acc))) in
  let sortedRaces := JS.sortBy byCountDesc (JS.Obj.entries (raceCounts acc)) in
  {| locations := JS.Obj.values (locationGroups acc);
     dataCategories := JS.sortBy JS.compareStrings (allCategories acc);
     stats :=
       {| totalRecords := nRecords;
          statsTotalMen := totalMen acc;
          statsTotalWomen := totalWomen acc;
          avgAge :=
            if 0 <? totalWithAge acc
            then JS.toFixed (JS.div (totalAge acc) (JS.ofNat (totalWithAge acc))) 1
            else "N/A";
          topCountries := sortedCountries;
          topCategories := sortedCategories;
          topGangs := sortedGangs;
          raceDistribution := sortedRaces |} |}.

(** The two input files: the text of the geocode table and the rows of
    the CSV file. *)
Record Files : Type := {
  geocode_locations_txt : string;
  transformed_df_csv : list CsvRecord
}.

Definition aggregate (geo : JS.Obj.t Coord) (records : list CsvRecord) : Acc :=
  fold_left (processRecord geo) records initialAcc.

(** [loadCSVData()]: the rows [csv-parse] returns for the file. *)
Definition loadCSVData (files : Files) : list CsvRecord := transformed_df_csv files.

Definition processData (files : Files) : Data :=
  let locations := parseGeocodeLocations (geocode_locations_txt files) in
  let records := loadCSVData files in
  summarize (List.length records) (aggregate locations records).

(** ** The cache and the routes *)

(** The module-level [cachedData]. *)
Record Server : Type := { cachedData : option Data }.

Definition initialServer : Server := {| cachedData := None |}.

Definition getData (files : Files) (srv : Server) : Data * Server :=
  match cachedData srv with
  | Some data => (data, srv)
  | None =>
      let data := processData files in
      (data, {| cachedData := Some data |})
  end.

(** The requests of the three routes; [category] is [req.query.category]
    when it is a string, [None] when the query has none. *)
Inductive Request : Type :=
  | GetIndex
  | GetApiLocations (category : option string)
  | GetApiStats.

Inductive Response : Type :=
  | Render (view title : string) (categories : list string) (stats : Stats)
  | JsonLocations (body : list LocationGroup)
  | JsonStats (body : Stats).

(** Lines 222-229. *)
Definition filterLocations (category : option string) (data : Data) : list LocationGroup :=
  if present category && negb (String.eqb (orEmpty category) "all") then
    filter (fun loc => 0 <? List.length (people loc))
      (map (fun loc =>
              {| group_lat := group_lat loc; group_lng := group_lng loc;
                 location := location loc;
                 people := filter (fun p => JS.arrayIncludes (categories p) (orEmpty category))
                             (people loc) |})
           (locations data))
  else locations data.

(** What a route handler sends once it has the data. *)
Definition respond (req : Request) (data : Data) : Response :=
  match req with
  | GetIndex => Render "index" "DHS WOW Interactive Map" (dataCategories data) (stats data)
  | GetApiLocations category => JsonLocations (filterLocations category data)
  | GetApiStats => JsonStats (stats data)
  end.

(** A route handler: [const data = getData();] and then the response. *)
Definition handle (files : Files) (req : Request) (srv : Server) : Response * Server :=
  let '(data, srv') := getData files srv in
  (respond req data, srv').

(** A run of the server: the files as they are when each request
    arrives, and the responses in order. *)
Fixpoint serve (reqs : list (Files * Request)) (srv : Server) : list Response * Server :=
  match reqs with
  | [] => ([], srv)
  | (files, req) :: reqs' =>
      let '(resp, srv') := handle files req srv in
      let '(resps, srv'') := serve reqs' srv' in
      (resp :: resps, srv'')
  end.

(** * The map client *)

(** ** [escapeHtml] *)

(** The serialisation of a text node: what [div.innerHTML] gives back
    after [div.textContent = s].  The ampersand, the two angle brackets
    and the no-break space (the bytes C2 A0) become character references,
    every other character stays. *)
Fixpoint serializeText (s : string) : string :=
  match s with
  | EmptyString => EmptyString
  | String c rest =>
      if Ascii.eqb c "&" then ("&amp;" ++ serializeText rest)%string
      else if Ascii.eqb c "<" then ("&lt;" ++ serializeText rest)%string
      else if Ascii.eqb c ">" then ("&gt;" ++ serializeText rest)%string
      else if Ascii.eqb c (ascii_of_nat 194) then
        match rest with
        | String d rest' =>
            if Ascii.eqb d (ascii_of_nat 160)
            then ("&nbsp;" ++ serializeText rest')%string
            else String c (serializeText rest)
        | EmptyString => String c EmptyString
        end
      else String c (serializeText rest)
  end.

(** [escapeHtml(text)]: the empty text for a falsy argument. *)
Definition escapeHtml (text : option string) : string :=
  if present text then serializeText (orEmpty text) else "".

(** ** [loadLocations] *)

(** The address [loadLocations(category)] fetches. *)
Definition locationsUrl (category : string) : string :=
  if String.eqb category "all" then "/api/locations"
  else ("/api/locations?category=" ++ encodeURIComponent category)%string.

(** * Properties *)

(** ** Strings *)

Lemma sforall_app p (a b : string) :
  JS.sforall p (a ++ b)%string = JS.sforall p a && JS.sforall p b.
Proof.
  induction a as [|c a IH]; simpl; [reflexivity|].
  rewrite IH, andb_assoc. reflexivity.
Qed.

Lemma sforall_sfilter p s : JS.sforall p (JS.sfilter p s) = true.
Proof.
  induction s as [|c s IH]; simpl; [reflexivity|].
  destruct (p c) eqn:E; simpl; [rewrite E|]; exact IH.
Qed.

Lemma sforall_trimStart p s :
  JS.sforall p s = true -> JS.sforall p (JS.trimStart s) = true.
Proof.
  induction s as [|c s IH]; simpl; [reflexivity|].
  intros H. apply andb_prop in H. destruct H as [Hc Hs].
  destruct (JS.isWhiteSpace c); [auto|]. simpl. rewrite Hc, Hs. reflexivity.
Qed.

Lemma sforall_trimEnd p s :
  JS.sforall p s = true -> JS.sforall p (JS.trimEnd s) = true.
Proof.
  induction s as [|c s IH]; simpl; [reflexivity|].
  intros H. apply andb_prop in H. destruct H as [Hc Hs].
  specialize (IH Hs).
  destruct (JS.trimEnd s) as [|d t].
  - destruct (JS.isWhiteSpace c); simpl; [reflexivity|]. rewrite Hc. reflexivity.
  - simpl in *. rewrite Hc. exact IH.
Qed.

Lemma sforall_trim p s : JS.sforall p s = true -> JS.sforall p (JS.trim s) = true.
Proof. intros H. apply sforall_trimEnd, sforall_trimStart, H. Qed.

(** A trimmed string starts and ends with characters that are not
    white space. *)
Definition startsClean (s : string) : bool :=
  match s with String c _ => negb (JS.isWhiteSpace c) | EmptyString => true end.

Fixpoint endsClean (s : string) : bool :=
  match s with
  | EmptyString => true
  | String c EmptyString => negb (JS.isWhiteSpace c)
  | String _ s' => endsClean s'
  end.

Lemma trimStart_startsClean s : startsClean (JS.trimStart s) = true.
Proof.
  induction s as [|c s IH]; simpl; [reflexivity|].
  destruct (JS.isWhiteSpace c) eqn:E; [exact IH|]. simpl. rewrite E. reflexivity.
Qed.

Lemma trimEnd_endsClean s : endsClean (JS.trimEnd s) = true.
Proof.
  induction s as [|c s IH]; simpl; [reflexivity|].
  destruct (JS.trimEnd s) as [|d t].
  - destruct (JS.isWhiteSpace c) eqn:E; simpl; [reflexivity|]. rewrite E. reflexivity.
  - exact IH.
Qed.

Lemma trimEnd_startsClean s : startsClean s = true -> startsClean (JS.trimEnd s) = true.
Proof.
  destruct s as [|c s]; simpl; [reflexivity|].
  intros H. destruct (JS.trimEnd s).
  - destruct (JS.isWhiteSpace c) eqn:E; [reflexivity|]. simpl. rewrite E. reflexivity.
  - simpl. exact H.
Qed.

Lemma trimStart_clean s : startsClean s = true -> JS.trimStart s = s.
Proof.
  destruct s as [|c s]; simpl; [reflexivity|].
  intros H. apply negb_true_iff in H. rewrite H. reflexivity.
Qed.

Lemma trimEnd_clean s : endsClean s = true -> JS.trimEnd s = s.
Proof.
  induction s as [|c s IH]; [reflexivity|].
  intros H. simpl. destruct s as [|d s].
  - simpl in *. apply negb_true_iff in H. rewrite H. reflexivity.
  - rewrite IH by exact H. reflexivity.
Qed.

Lemma trim_clean s : startsClean s = true -> endsClean s = true -> JS.trim s = s.
Proof.
  intros H1 H2. unfold JS.trim. rewrite (trimStart_clean _ H1). apply trimEnd_clean, H2.
Qed.

Lemma trim_idempotent s : JS.trim (JS.trim s) = JS.trim s.
Proof.
  apply trim_clean.
  - apply trimEnd_startsClean, trimStart_startsClean.
  - apply trimEnd_endsClean.
Qed.

Lemma split_nonempty sep s : JS.split sep s <> [].
Proof.
  destruct s as [|c s]; simpl; [discriminate|].
  destruct (Ascii.eqb c sep); [discriminate|].
  destruct (JS.split sep s); discriminate.
Qed.

Lemma split_sforall p sep s :
  JS.sforall p s = true -> Forall (fun piece => JS.sforall p piece = true) (JS.split sep s).
Proof.
  induction s as [|c s IH]; simpl; intros H.
  - repeat constructor.
  - apply andb_prop in H. destruct H as [Hc Hs]. specialize (IH Hs).
    destruct (Ascii.eqb c sep).
    + constructor; [reflexivity | exact IH].
    + destruct (JS.split sep s) as [|piece rest].
      * repeat constructor. simpl. rewrite Hc. reflexivity.
      * inversion IH; subst. constructor; [simpl; rewrite Hc; assumption | assumption].
Qed.

Lemma split_no_sep sep s :
  Forall (fun piece => JS.sforall (fun c => negb (Ascii.eqb c sep)) piece = true)
         (JS.split sep s).
Proof.
  induction s as [|c s IH]; simpl.
  - repeat constructor.
  - destruct (Ascii.eqb c sep) eqn:E.
    + constructor; [reflexivity | exact IH].
    + destruct (JS.split sep s) as [|piece rest].
      * repeat constructor. simpl. rewrite E. reflexivity.
      * inversion IH; subst. constructor; [simpl; rewrite E; assumption | assumption].
Qed.

(** Joining the pieces with the separator gives the string back. *)
Lemma join_split sep s : JS.join (String sep EmptyString) (JS.split sep s) = s.
Proof.
  induction s as [|c s IH]; simpl; [reflexivity|].
  destruct (Ascii.eqb_spec c sep) as [->|Hne].
  - pose proof (split_nonempty sep s) as Hn.
    destruct (JS.split sep s) as [|x l]; [contradiction|].
    simpl. simpl in IH. rewrite IH. reflexivity.
  - pose proof (split_nonempty sep s) as Hn.
    destruct (JS.split sep s) as [|x l]; [contradiction|].
    destruct l as [|y l]; simpl in *; rewrite IH; reflexivity.
Qed.

(** ** The pseudo-list parser *)

(** What every parsed item satisfies: it is not empty, it has no white
    space at either end, and it has no bracket, quote or comma. *)
Definition cleanItem (item : string) : Prop :=
  item <> EmptyString /\
  JS.trim item = item /\
  JS.sforall (fun c => negb (isBracketOrQuote c)) item = true /\
  JS.sforall (fun c => negb (Ascii.eqb c ",")) item = true.

Lemma parsePseudoList_pipeline s :
  parsePseudoList (Some s) =
  filter JS.truthy
    (map JS.trim (JS.split "," (JS.sfilter (fun c => negb (isBracketOrQuote c)) s))).
Proof. destruct s; reflexivity. Qed.

Lemma parsePseudoList_clean field : Forall cleanItem (parsePseudoList field).
Proof.
  destruct field as [s|]; [|constructor].
  rewrite parsePseudoList_pipeline.
  set (t := JS.sfilter _ s).
  assert (Hb : Forall (fun piece => JS.sforall (fun c => negb (isBracketOrQuote c)) piece = true)
                      (JS.split "," t)) by (apply split_sforall, sforall_sfilter).
  pose proof (split_no_sep "," t) as Hc.
  induction (JS.split "," t) as [|piece l IH]; simpl; [constructor|].
  inversion Hb; subst. inversion Hc; subst.
  destruct (JS.truthy (JS.trim piece)) eqn:E; [|auto].
  constructor; [|auto].
  repeat split.
  - intros H. rewrite H in E. discriminate.
  - apply trim_idempotent.
  - apply sforall_trim. assumption.
  - apply sforall_trim. assumption.
Qed.


(** ** Dictionaries *)

Section ObjFacts.
Context {V : Type}.
Implicit Types (o : JS.Obj.t V) (k : string) (v : V).

Lemma get_update_same k v o old :
  JS.Obj.get k o = Some old -> JS.Obj.get k (JS.Obj.update k v o) = Some v.
Proof.
  induction o as [|[k' v'] o IH]; simpl; [discriminate|].
  destruct (String.eqb k' k) eqn:E; simpl; rewrite E; auto.
Qed.

Lemma get_update_other k k' v o :
  k' <> k -> JS.Obj.get k' (JS.Obj.update k v o) = JS.Obj.get k' o.
Proof.
  intros Hne. induction o as [|[k0 v0] o IH]; simpl; [reflexivity|].
  destruct (String.eqb k0 k) eqn:E; simpl.
  - apply String.eqb_eq in E. subst k0.
    destruct (String.eqb k k') eqn:E'; [|reflexivity].
    apply String.eqb_eq in E'. congruence.
  - rewrite IH. reflexivity.
Qed.

Lemma get_app k o o' :
  JS.Obj.get k (o ++ o') =
  match JS.Obj.get k o with Some v => Some v | None => JS.Obj.get k o' end.
Proof.
  induction o as [|[k0 v0] o IH]; simpl; [reflexivity|].
  destruct (String.eqb k0 k); [reflexivity | exact IH].
Qed.

Lemma get_insertIndex_same i k v o :
  JS.Obj.get k o = None -> JS.Obj.get k (JS.Obj.insertIndex i k v o) = Some v.
Proof.
  induction o as [|[k0 v0] o IH]; simpl.
  - rewrite String.eqb_refl. reflexivity.
  - destruct (String.eqb k0 k) eqn:E; [discriminate|]. intros H.
    destruct (JS.Obj.arrayIndex k0) as [j|].
    + destruct (i <? j)%Z; simpl.
      * rewrite String.eqb_refl. reflexivity.
      * rewrite E. auto.
    + simpl. rewrite String.eqb_refl. reflexivity.
Qed.

Lemma get_insertIndex_other i k k' v o :
  k' <> k -> JS.Obj.get k' (JS.Obj.insertIndex i k v o) = JS.Obj.get k' o.
Proof.
  intros Hne. apply not_eq_sym in Hne. apply String.eqb_neq in Hne.
  induction o as [|[k0 v0] o IH]; simpl.
  - rewrite Hne. reflexivity.
  - destruct (JS.Obj.arrayIndex k0) as [j|].
    + destruct (i <? j)%Z; simpl.
      * rewrite Hne. reflexivity.
      * rewrite IH. reflexivity.
    + simpl. rewrite Hne. reflexivity.
Qed.

Lemma get_set_same k v o : JS.Obj.get k (JS.Obj.set k v o) = Some v.
Proof.
  unfold JS.Obj.set. destruct (JS.Obj.get k o) as [old|] eqn:E.
  - eapply get_update_same; eassumption.
  - destruct (JS.Obj.arrayIndex k).
    + apply get_insertIndex_same, E.
    + rewrite get_app, E. simpl. rewrite String.eqb_refl. reflexivity.
Qed.

Lemma get_set_other k k' v o :
  k' <> k -> JS.Obj.get k' (JS.Obj.set k v o) = JS.Obj.get k' o.
Proof.
  intros Hne. unfold JS.Obj.set. destruct (JS.Obj.get k o) as [old|] eqn:E.
  - apply get_update_other, Hne.
  - destruct (JS.Obj.arrayIndex k).
    + apply get_insertIndex_other, Hne.
    + rewrite get_app. simpl.
      apply not_eq_sym in Hne. apply String.eqb_neq in Hne. rewrite Hne.
      destruct (JS.Obj.get k' o); reflexivity.
Qed.

(** The sum of a measure over the values. *)
Definition total (f : V -> nat) (o : JS.Obj.t V) : nat :=
  list_sum (map f (JS.Obj.values o)).

Lemma total_update f k v o old :
  JS.Obj.get k o = Some old ->
  total f (JS.Obj.update k v o) + f old = total f o + f v.
Proof.
  unfold total, JS.Obj.values.
  induction o as [|[k0 v0] o IH]; simpl; [discriminate|].
  destruct (String.eqb k0 k); simpl.
  - intros [= ->]. lia.
  - intros H. specialize (IH H). lia.
Qed.

Lemma total_insertIndex f i k v o :
  total f (JS.Obj.insertIndex i k v o) = total f o + f v.
Proof.
  unfold total, JS.Obj.values.
  induction o as [|[k0 v0] o IH]; simpl; [lia|].
  destruct (JS.Obj.arrayIndex k0) as [j|]; [destruct (i <? j)%Z|]; simpl; lia.
Qed.

Lemma total_set_new f k v o :
  JS.Obj.get k o = None -> total f (JS.Obj.set k v o) = total f o + f v.
Proof.
  intros E. unfold JS.Obj.set. rewrite E.
  destruct (JS.Obj.arrayIndex k); [apply total_insertIndex|].
  unfold total, JS.Obj.values. rewrite !map_app, list_sum_app. simpl. lia.
Qed.

Lemma total_set_old f k v o old :
  JS.Obj.get k o = Some old -> total f (JS.Obj.set k v o) + f old = total f o + f v.
Proof.
  intros E. unfold JS.Obj.set. rewrite E. apply total_update, E.
Qed.

End ObjFacts.

(** ** Every record lands in one group *)

Definition groupSize (g : LocationGroup) : nat := List.length (people g).

Lemma pushPerson_total coords arrested p groups :
  total groupSize (pushPerson coords arrested p groups) = S (total groupSize groups).
Proof.
  unfold pushPerson.
  set (key := locationKey coords).
  destruct (JS.Obj.get key groups) as [g|] eqn:E.
  - rewrite E.
    pose proof (total_set_old groupSize key
      {| group_lat := group_lat g; group_lng := group_lng g;
         location := location g; people := people g ++ [p] |} groups g E) as H.
    unfold groupSize in *. simpl in H. rewrite length_app in H. simpl in H. lia.
  - rewrite get_set_same.
    set (fresh := {| group_lat := lat coords; group_lng := lng coords;
                     location := arrested; people := [] |}).
    pose proof (total_set_new groupSize key fresh groups E) as H0.
    pose proof (total_set_old groupSize key
      {| group_lat := group_lat fresh; group_lng := group_lng fresh;
         location := location fresh; people := people fresh ++ [p] |}
      (JS.Obj.set key fresh groups) fresh (get_set_same _ _ _)) as H.
    unfold groupSize in *. subst fresh. simpl in *. lia.
Qed.

Lemma aggregate_total geo records acc :
  total groupSize (locationGroups (fold_left (processRecord geo) records acc)) =
  total groupSize (locationGroups acc) + List.length records.
Proof.
  revert acc. induction records as [|r records IH]; intros acc; simpl; [lia|].
  rewrite IH. simpl. rewrite pushPerson_total. lia.
Qed.

(** C1. In the unfiltered output of the aggregator the lengths of the
    people sequences of the location groups add up to the number of input
    records, whatever the records and the geocode table are. *)
Theorem C1_every_record_in_one_group (files : Files) :
  list_sum (map (fun g => List.length (people g)) (locations (processData files))) =
  List.length (transformed_df_csv files).
Proof.
  unfold processData, summarize, aggregate, loadCSVData. simpl.
  pose proof (aggregate_total (parseGeocodeLocations (geocode_locations_txt files))
                (transformed_df_csv files) initialAcc) as H.
  unfold total in H. simpl in H. exact H.
Qed.

(** ** The text of [toFixed] *)














Lemma arrayIndex_with_comma a b : @JS.Obj.arrayIndex (a ++ "," ++ b) = None.
Proof.
  unfold JS.Obj.arrayIndex.
  destruct (a ++ "," ++ b)%string as [|c rest] eqn:E; [reflexivity|].
  rewrite <- E.
  assert (JS.sforall JS.isDigit (a ++ "," ++ b) = false) as ->.
  { rewrite sforall_app. simpl. apply andb_false_r. }
  reflexivity.
Qed.

Lemma arrayIndex_locationKey coords : JS.Obj.arrayIndex (locationKey coords) = None.
Proof. apply arrayIndex_with_comma. Qed.


(** ** The groups of the aggregator *)

(** The distinct elements of a list, in the order of their first
    occurrence. *)
Definition distinct (l : list string) : list string :=
  fold_left (fun s k => setAdd k s) l [].

(** The key of the group a record goes to, and the records of a key. *)
Definition keyOf (geo : JS.Obj.t Coord) (record : CsvRecord) : string :=
  locationKey (resolveCoords geo record).

Definition members (geo : JS.Obj.t Coord) (records : list CsvRecord) (k : string)
  : list CsvRecord :=
  filter (fun r => String.eqb (keyOf geo r) k) records.

Definition blankRecord : CsvRecord :=
  {| ARRESTED := None; CRIME_CATEGORIES := None; CONVICTED_OF := None;
     PICTURE_LOCAL := None; ID := None; NAME := None; COUNTRY := None;
     GANG_AFFILIATION := None; DEEPFACE_age := None;
     DEEPFACE_gender_dominant := None; DEEPFACE_race_dominant := None;
     DEEPFACE_emotion_dominant := None |}.

(** The group of key [k]: coordinates and display name of the first
    record of the key, and the persons of all its records in input
    order. *)
Definition groupOf (geo : JS.Obj.t Coord) (records : list CsvRecord) (k : string)
  : LocationGroup :=
  let ms := members geo records k in
  let first := hd blankRecord ms in
  {| group_lat := lat (resolveCoords geo first);
     group_lng := lng (resolveCoords geo first);
     location := orEmpty (ARRESTED first);
     people := map mkPerson ms |}.

Lemma existsb_eqb_In x (s : list string) : existsb (String.eqb x) s = true <-> In x s.
Proof.
  rewrite existsb_exists. split.
  - intros [y [Hy E]]. apply String.eqb_eq in E. subst. exact Hy.
  - intros H. exists x. split; [exact H | apply String.eqb_refl].
Qed.

Lemma setAdd_In x y s : In y (setAdd x s) <-> y = x \/ In y s.
Proof.
  unfold setAdd. destruct (existsb (String.eqb x) s) eqn:E.
  - apply existsb_eqb_In in E. split; [auto | intros [->|H]; assumption].
  - rewrite in_app_iff. simpl. intuition.
Qed.

Lemma setAdd_NoDup x s : NoDup s -> NoDup (setAdd x s).
Proof.
  intros H. unfold setAdd. destruct (existsb (String.eqb x) s) eqn:E; [exact H|].
  assert (Hx : ~ In x s).
  { intros Hin. apply existsb_eqb_In in Hin. congruence. }
  clear E. induction H as [|y s Hy Hs IH]; simpl.
  - constructor; [intros [] | constructor].
  - constructor.
    + rewrite in_app_iff. simpl. intros [H|[H|[]]]; [auto | subst; apply Hx; left; reflexivity].
    + apply IH. intros H. apply Hx. right. exact H.
Qed.

Lemma distinct_snoc l x : distinct (l ++ [x]) = setAdd x (distinct l).
Proof. unfold distinct. rewrite fold_left_app. reflexivity. Qed.

Lemma distinct_In l k : In k (distinct l) <-> In k l.
Proof.
  induction l as [|x l IH] using rev_ind; [reflexivity|].
  rewrite distinct_snoc, setAdd_In, in_app_iff, IH. simpl. intuition.
Qed.

Lemma distinct_NoDup l : NoDup (distinct l).
Proof.
  induction l as [|x l IH] using rev_ind; [constructor|].
  rewrite distinct_snoc. apply setAdd_NoDup, IH.
Qed.

Section Tabulate.
Context {V : Type}.
Variable F : string -> V.

(** The dictionary with the keys [ks], in that order, and the value
    [F k] under [k]. *)
Definition tabulate (ks : list string) : JS.Obj.t V := map (fun k => (k, F k)) ks.

Lemma get_tabulate k ks :
  JS.Obj.get k (tabulate ks) = if existsb (String.eqb k) ks then Some (F k) else None.
Proof.
  induction ks as [|k0 ks IH]; simpl; [reflexivity|].
  rewrite (String.eqb_sym k k0).
  destruct (String.eqb_spec k0 k) as [->|]; simpl; [reflexivity | exact IH].
Qed.
End Tabulate.

Lemma update_tabulate {V : Type} (F F' : string -> V) k v ks :
  NoDup ks -> F' k = v -> (forall k', k' <> k -> F' k' = F k') ->
  JS.Obj.update k v (tabulate F ks) = tabulate F' ks.
Proof.
  intros Hnd Hk Hother. induction Hnd as [|k0 ks Hk0 Hnd IH]; simpl; [reflexivity|].
  destruct (String.eqb_spec k0 k) as [->|Hne].
  - rewrite Hk. f_equal. apply map_ext_in. intros k' Hin.
    rewrite Hother; [reflexivity|]. intros ->. contradiction.
  - rewrite (Hother _ Hne), IH. reflexivity.
Qed.

Lemma update_app_new {V : Type} k (v : V) o o' :
  JS.Obj.get k o = None -> JS.Obj.update k v (o ++ o') = o ++ JS.Obj.update k v o'.
Proof.
  induction o as [|[k0 v0] o IH]; simpl; [reflexivity|].
  destruct (String.eqb k0 k); [discriminate|]. intros H. rewrite (IH H). reflexivity.
Qed.

Lemma members_snoc geo rs r k :
  members geo (rs ++ [r]) k =
  members geo rs k ++ (if String.eqb (keyOf geo r) k then [r] else []).
Proof. unfold members. rewrite filter_app. reflexivity. Qed.

Lemma members_nil geo rs k : ~ In k (map (keyOf geo) rs) -> members geo rs k = [].
Proof.
  unfold members. induction rs as [|r rs IH]; simpl; [reflexivity|].
  intros H. destruct (String.eqb_spec (keyOf geo r) k) as [E|_].
  - exfalso. apply H. left. exact E.
  - apply IH. intros Hin. apply H. right. exact Hin.
Qed.

Lemma members_cons geo rs k :
  In k (map (keyOf geo) rs) -> exists r0 ms, members geo rs k = r0 :: ms.
Proof.
  unfold members. induction rs as [|r rs IH]; simpl; [intros []|].
  intros H. destruct (String.eqb_spec (keyOf geo r) k) as [E|Hne].
  - eauto.
  - destruct H as [H|H]; [contradiction | auto].
Qed.

Lemma groupOf_other geo rs r k :
  keyOf geo r <> k -> groupOf geo (rs ++ [r]) k = groupOf geo rs k.
Proof.
  intros Hne. unfold groupOf. rewrite members_snoc.
  apply String.eqb_neq in Hne. rewrite Hne, app_nil_r. reflexivity.
Qed.

(** The state of [locationGroups] after the loop has run over
    [records]. *)
Lemma aggregate_groups geo records :
  locationGroups (aggregate geo records) =
  tabulate (groupOf geo records) (distinct (map (keyOf geo) records)).
Proof.
  unfold aggregate.
  induction records as [|r rs IH] using rev_ind; [reflexivity|].
  rewrite fold_left_app, map_app. cbn [fold_left map]. rewrite distinct_snoc.
  cbn [processRecord locationGroups]. rewrite IH. clear IH.
  set (ks := distinct (map (keyOf geo) rs)).
  assert (Hnd : NoDup ks) by apply distinct_NoDup.
  unfold pushPerson. fold (keyOf geo r). set (key := keyOf geo r).
  rewrite get_tabulate. unfold setAdd.
  destruct (existsb (String.eqb key) ks) eqn:E.
  - (* the group exists *)
    rewrite get_tabulate, E. unfold JS.Obj.set. rewrite get_tabulate, E.
    apply update_tabulate; [exact Hnd | | intros k' Hk'; apply groupOf_other; intros Heq; apply Hk'; symmetry; exact Heq].
    apply existsb_eqb_In in E. unfold ks in E. rewrite distinct_In in E.
    destruct (members_cons _ _ _ E) as [r0 [ms Hms]].
    unfold groupOf. rewrite members_snoc. fold key. rewrite String.eqb_refl, Hms.
    simpl. rewrite map_app. reflexivity.
  - (* the group is created *)
    assert (Hnew : ~ In key (map (keyOf geo) rs)).
    { intros Hin. apply (distinct_In _ key) in Hin. apply existsb_eqb_In in Hin.
      unfold ks in E. congruence. }
    rewrite get_set_same.
    unfold JS.Obj.set at 2. rewrite get_tabulate, E.
    unfold key at 2, keyOf. rewrite arrayIndex_locationKey. fold (keyOf geo r). fold key.
    unfold JS.Obj.set. rewrite get_app, get_tabulate, E. simpl. rewrite String.eqb_refl.
    rewrite update_app_new by (rewrite get_tabulate, E; reflexivity).
    simpl. rewrite String.eqb_refl.
    unfold tabulate. rewrite map_app. simpl. f_equal.
    + apply map_ext_in. intros k Hk. f_equal. symmetry. apply groupOf_other.
      intros Heq. apply Hnew. rewrite <- distinct_In. fold key in Heq. subst k. exact Hk.
    + unfold groupOf. rewrite members_snoc, (members_nil _ _ _ Hnew).
      fold key. rewrite String.eqb_refl. reflexivity.
Qed.










(** ** The average age *)

(** The ages that count: the values [parseFloat] gives for the age
    fields, in input order, without the [NaN]s. *)
Definition countedAges (records : list CsvRecord) : list JS.number :=
  filter (fun a => negb (JS.isNaN a))
         (map (fun r => parseFloatField (DEEPFACE_age r)) records).

Lemma aggregate_ages geo records acc :
  let acc' := fold_left (processRecord geo) records acc in
  totalWithAge acc' = totalWithAge acc + List.length (countedAges records) /\
  totalAge acc' = fold_left JS.add (countedAges records) (totalAge acc).
Proof.
  revert acc. unfold countedAges.
  induction records as [|r rs IH]; intros acc; cbn [fold_left map filter].
  - simpl. split; [lia | reflexivity].
  - destruct (IH (processRecord geo acc r)) as [IHn IHs].
    cbv zeta. rewrite IHn, IHs. cbn [processRecord totalWithAge totalAge].
    destruct (negb (JS.isNaN (parseFloatField (DEEPFACE_age r)))); simpl; split;
      (lia || reflexivity).
Qed.

(** The average as the specification words it: only the ages that are
    finite numbers count. *)
Definition avgAgeOfFinite (records : list CsvRecord) : string :=
  let ages := filter JS.isFinite (map (fun r => parseFloatField (DEEPFACE_age r)) records) in
  match ages with
  | [] => "N/A"
  | _ => JS.toFixed (JS.div (fold_left JS.add ages (S754_zero false))
                            (JS.ofNat (List.length ages))) 1
  end.

Definition recordWithAge (a : string) : CsvRecord :=
  {| ARRESTED := None; CRIME_CATEGORIES := None; CONVICTED_OF := None;
     PICTURE_LOCAL := None; ID := None; NAME := None; COUNTRY := None;
     GANG_AFFILIATION := None; DEEPFACE_age := Some a;
     DEEPFACE_gender_dominant := None; DEEPFACE_race_dominant := None;
     DEEPFACE_emotion_dominant := None |}.

(** One record whose age field is the text Infinity: [parseFloat] gives
    the infinite Number, [isNaN] lets it through, and the average is shown
    as Infinity, where an average over the finite ages only would be
    N/A. *)
Lemma C5_infinite_age_is_counted :
  let files := {| geocode_locations_txt := "";
                  transformed_df_csv := [recordWithAge "Infinity"] |} in
  JS.isFinite (parseFloatField (DEEPFACE_age (recordWithAge "Infinity"))) = false /\
  avgAge (stats (processData files)) = "Infinity" /\
  avgAgeOfFinite (transformed_df_csv files) = "N/A".
Proof. repeat split. Qed.

(** C5 (amended). A record's age is counted exactly when [parseFloat] of
    its age field is not [NaN] (an infinite value is counted).  [avgAge]
    is N/A when no age is counted; otherwise it is the binary64 sum of the
    counted ages, added in input order starting from 0, divided by their
    number and shown by [toFixed(1)]. *)
Theorem C5_average_age (files : Files) :
  let ages := countedAges (transformed_df_csv files) in
  avgAge (stats (processData files)) =
  match ages with
  | [] => "N/A"
  | _ => JS.toFixed (JS.div (fold_left JS.add ages (S754_zero false))
                            (JS.ofNat (List.length ages))) 1
  end.
Proof.
  intros ages. unfold processData, summarize, aggregate, loadCSVData. cbn [stats avgAge].
  destruct (aggregate_ages (parseGeocodeLocations (geocode_locations_txt files))
              (transformed_df_csv files) initialAcc) as [Hn Hs].
  rewrite Hn, Hs. fold ages. cbn [initialAcc totalWithAge totalAge].
  destruct ages as [|a ages']; reflexivity.
Qed.

(** ** The sorted lists of the statistics *)





Lemma sortInsert_Permutation {A} (cmp : A -> A -> Z) x l :
  Permutation (x :: l) (JS.sortInsert cmp x l).
Proof.
  induction l as [|y l IH]; simpl; [reflexivity|].
  destruct (cmp x y <=? 0)%Z; [reflexivity|].
  rewrite perm_swap. constructor. exact IH.
Qed.

Lemma sortBy_Permutation {A} (cmp : A -> A -> Z) l : Permutation l (JS.sortBy cmp l).
Proof.
  induction l as [|x l IH]; simpl; [constructor|].
  rewrite <- sortInsert_Permutation. constructor. exact IH.
Qed.




(** ** The age of a person *)

(** C10. When the age field of a record is a non-empty text for which
    [parseFloat] gives [NaN], the age of the derived person is [NaN], not
    [null]; and the age is [null] exactly when the field is empty or
    absent. *)
Theorem C10_person_age (record : CsvRecord) :
  (forall s, DEEPFACE_age record = Some s -> s <> "" ->
             JS.isNaN (JS.parseFloat s) = true ->
             age (mkPerson record) = Some JS.NaN) /\
  (age (mkPerson record) = None <->
   DEEPFACE_age record = None \/ DEEPFACE_age record = Some "").
Proof.
  unfold mkPerson. cbn [age]. split.
  - intros s E Hs Hnan. rewrite E. destruct s as [|c s]; [contradiction|].
    cbn [present JS.truthy orEmpty].
    destruct (JS.parseFloat (String c s)); try discriminate. reflexivity.
  - destruct (DEEPFACE_age record) as [[|c s]|]; cbn [present JS.truthy orEmpty]; split;
      intros H; auto; try discriminate.
    destruct H as [H|H]; discriminate.
Qed.

Lemma C10_person_age_witness :
  age (mkPerson (recordWithAge "unknown")) = Some JS.NaN /\
  age (mkPerson (recordWithAge "")) = None.
Proof.
  split.
  - apply (proj1 (C10_person_age (recordWithAge "unknown")) "unknown").
    + reflexivity.
    + discriminate.
    + reflexivity.
  - apply (proj2 (C10_person_age (recordWithAge ""))). right. reflexivity.
Defined.

(** ** The category filter *)

Definition hasCategory (c : string) (p : Person) : bool :=
  JS.arrayIncludes (categories p) c.

(** A group with only its people of category [c]. *)
Definition restrictTo (c : string) (loc : LocationGroup) : LocationGroup :=
  {| group_lat := group_lat loc; group_lng := group_lng loc;
     location := location loc;
     people := filter (hasCategory c) (people loc) |}.

Lemma hasCategory_In c p : hasCategory c p = true <-> In c (categories p).
Proof. apply existsb_eqb_In. Qed.

Lemma filter_nonempty_existsb {A} (f : A -> bool) l :
  (0 <? List.length (filter f l)) = existsb f l.
Proof.
  induction l as [|x l IH]; simpl; [reflexivity|].
  destruct (f x); simpl; [reflexivity | exact IH].
Qed.

Lemma filter_map_restrictTo c l :
  filter (fun loc => 0 <? List.length (people loc)) (map (restrictTo c) l) =
  map (restrictTo c) (filter (fun loc => existsb (hasCategory c) (people loc)) l).
Proof.
  induction l as [|loc l IH]; [reflexivity|].
  cbn [map filter]. rewrite IH. unfold restrictTo at 1. cbn [people].
  rewrite filter_nonempty_existsb.
  destruct (existsb (hasCategory c) (people loc)); reflexivity.
Qed.

Lemma filterLocations_all category data :
  category = None \/ category = Some "" \/ category = Some "all" ->
  filterLocations category data = locations data.
Proof. intros [->|[->| ->]]; reflexivity. Qed.

Lemma filterLocations_category c data :
  c <> "" -> c <> "all" ->
  filterLocations (Some c) data =
  map (restrictTo c)
      (filter (fun loc => existsb (hasCategory c) (people loc)) (locations data)).
Proof.
  intros Hne Hall. unfold filterLocations. cbn [present orEmpty].
  destruct c as [|a c]; [contradiction|]. cbn [JS.truthy andb].
  apply String.eqb_neq in Hall. rewrite Hall. cbn [negb].
  exact (filter_map_restrictTo (String a c) (locations data)).
Qed.

Lemma filterLocations_unknown c data :
  c <> "" -> c <> "all" ->
  (forall loc p, In loc (locations data) -> In p (people loc) -> ~ In c (categories p)) ->
  filterLocations (Some c) data = [].
Proof.
  intros Hne Hall Hnone. rewrite filterLocations_category by assumption.
  induction (locations data) as [|loc l IH]; [reflexivity|]. cbn [filter].
  assert (E : existsb (hasCategory c) (people loc) = false).
  { apply not_true_is_false. intros H. apply existsb_exists in H.
    destruct H as [p [Hp Hc]]. apply hasCategory_In in Hc.
    exact (Hnone loc p (or_introl eq_refl) Hp Hc). }
  rewrite E. apply IH. intros loc' p Hl. apply Hnone. right. exact Hl.
Qed.

(** The response as the specification words it: everything when the
    parameter is omitted or is [all], and otherwise the groups with a
    person of the requested category, restricted to those persons. *)
Definition filterLocationsClaimed (category : option string) (data : Data)
  : list LocationGroup :=
  match category with
  | None => locations data
  | Some c =>
      if String.eqb c "all" then locations data
      else map (restrictTo c)
             (filter (fun loc => existsb (hasCategory c) (people loc)) (locations data))
  end.

(** A request with [category=] (present and empty) on the data of one
    record: no person has the empty category, so the claimed response is
    empty, but the handler answers with the one group. *)
Lemma C2_empty_category_returns_everything :
  let files := {| geocode_locations_txt := ""; transformed_df_csv := [blankRecord] |} in
  let data := processData files in
  fst (handle files (GetApiLocations (Some "")) initialServer) = JsonLocations (locations data) /\
  List.length (locations data) = 1 /\
  filterLocationsClaimed (Some "") data = [].
Proof. repeat split. Qed.

(** C2 (amended). On the data the server holds, a request to
    [/api/locations] whose category is omitted, empty or [all] is answered
    with the full sequence of groups.  Any other category [c] is answered
    with exactly the groups that have a person whose categories contain
    [c], in order, each with its people filtered to those persons; when no
    person has [c] the answer is the empty sequence.  The handler has no
    error response. *)
Theorem C2_locations_filter (files : Files) (srv : Server) (category : option string) :
  let data := fst (getData files srv) in
  exists body,
    fst (handle files (GetApiLocations category) srv) = JsonLocations body /\
    (category = None \/ category = Some "" \/ category = Some "all" ->
     body = locations data) /\
    (forall c, category = Some c -> c <> "" -> c <> "all" ->
       body = map (restrictTo c)
                (filter (fun loc => existsb (hasCategory c) (people loc)) (locations data)) /\
       ((forall loc p, In loc (locations data) -> In p (people loc) -> ~ In c (categories p)) ->
        body = [])).
Proof.
  intros data. exists (filterLocations category data). split; [|split].
  - unfold handle, data. destruct (getData files srv) as [d srv']. reflexivity.
  - apply filterLocations_all.
  - intros c -> Hne Hall. split.
    + apply filterLocations_category; assumption.
    + apply filterLocations_unknown; assumption.
Qed.

(** ** The cache *)

Lemma getData_cached files srv data :
  cachedData srv = Some data -> getData files srv = (data, srv).
Proof. intros H. unfold getData. rewrite H. reflexivity. Qed.

Lemma getData_first files :
  getData files initialServer = (processData files, {| cachedData := Some (processData files) |}).
Proof. reflexivity. Qed.

Lemma handle_cached files req srv data :
  cachedData srv = Some data -> handle files req srv = (respond req data, srv).
Proof. intros H. unfold handle. rewrite (getData_cached _ _ _ H). reflexivity. Qed.

Lemma serve_cached reqs srv data :
  cachedData srv = Some data ->
  serve reqs srv = (map (fun fr => respond (snd fr) data) reqs, srv).
Proof.
  intros H. induction reqs as [|[files req] reqs IH]; [reflexivity|].
  cbn [serve]. rewrite (handle_cached _ _ _ _ H), IH. reflexivity.
Qed.

(** C8. The first access computes the aggregation of the files as they
    are then and stores it.  After that, whatever requests are served
    (with any category filters, and whatever the files have become), the
    server state is the same, every response is computed from the stored
    value, and the next access returns that value again. *)
Theorem C8_cache_is_never_changed (files0 : Files) (reqs : list (Files * Request)) (files : Files) :
  let data0 := fst (getData files0 initialServer) in
  let srv1 := snd (getData files0 initialServer) in
  data0 = processData files0 /\
  cachedData srv1 = Some data0 /\
  snd (serve reqs srv1) = srv1 /\
  fst (serve reqs srv1) = map (fun fr => respond (snd fr) data0) reqs /\
  getData files (snd (serve reqs srv1)) = (data0, srv1).
Proof.
  cbv zeta. rewrite getData_first. cbn [fst snd].
  rewrite (serve_cached reqs {| cachedData := Some (processData files0) |}
             (processData files0) eq_refl). cbn [fst snd].
  repeat split.
Qed.

(** ** Resolving coordinates *)


Lemma stripPrefix_spec p s rest :
  JS.stripPrefix p s = Some rest <-> s = (p ++ rest)%string.
Proof.
  revert s. induction p as [|a p IH]; intros [|b s]; simpl.
  - split; [intros [= <-]; reflexivity | intros <-; reflexivity].
  - split; [intros [= <-]; reflexivity | intros <-; reflexivity].
  - split; discriminate.
  - destruct (Ascii.eqb_spec a b) as [->|Hne].
    + rewrite IH. split; [intros ->; reflexivity | intros [= ->]; reflexivity].
    + split; [discriminate | intros [= -> _]; contradiction].
Qed.








(** ** The regular expression consumes input *)

Section Consumes.
Context {R : Type}.
Implicit Types (k : @JS.RegExp.cont R) (s : string) (r : R).

(** A matcher only calls its continuation on what is left of its
    input. *)
Definition consumes (m : @JS.RegExp.matcher R) : Prop :=
  forall k s r, m k s = Some r ->
  exists s', String.length s' <= String.length s /\ k s' = Some r.

Lemma stripPrefix_length p s rest :
  JS.stripPrefix p s = Some rest ->
  String.length s = String.length p + String.length rest.
Proof.
  revert s. induction p as [|a p IH]; intros [|b s]; simpl; try discriminate.
  - intros [= <-]. reflexivity.
  - intros [= <-]. reflexivity.
  - destruct (Ascii.eqb a b); [|discriminate]. intros H. rewrite (IH _ H). reflexivity.
Qed.

Lemma lit_consumes p k s r :
  JS.RegExp.lit p k s = Some r ->
  exists s', String.length s = String.length p + String.length s' /\ k s' = Some r.
Proof.
  unfold JS.RegExp.lit. destruct (JS.stripPrefix p s) as [rest|] eqn:E; [|discriminate].
  intros H. exists rest. split; [apply stripPrefix_length, E | exact H].
Qed.

Lemma star_consumes p : consumes (JS.RegExp.star p).
Proof.
  intros k s. induction s as [|c s IH]; intros r; simpl.
  - intros H. exists "". auto.
  - destruct (p c).
    + destruct (JS.RegExp.star p k s) as [r'|] eqn:E.
      * intros [= <-]. destruct (IH r' eq_refl) as [s' [Hl Hk]].
        exists s'. simpl. split; [lia | exact Hk].
      * intros H. exists (String c s). auto.
    + intros H. exists (String c s). auto.
Qed.

Lemma plus_consumes p : consumes (JS.RegExp.plus p).
Proof.
  intros k [|c s] r; simpl; [discriminate|].
  destruct (p c); [|discriminate]. intros H.
  destruct (star_consumes p k s r H) as [s' [Hl Hk]].
  exists s'. simpl. split; [lia | exact Hk].
Qed.

Lemma opt_consumes c : consumes (JS.RegExp.opt c).
Proof.
  intros k [|c' s] r; simpl.
  - intros H. exists "". auto.
  - destruct (Ascii.eqb c c').
    + destruct (k s) as [r'|] eqn:E.
      * intros [= <-]. exists s. simpl. split; [lia | exact E].
      * intros H. exists (String c' s). auto.
    + intros H. exists (String c' s). auto.
Qed.

Lemma lazyStar_consumes p : consumes (JS.RegExp.lazyStar p).
Proof.
  intros k s. induction s as [|c s IH]; intros r; simpl.
  - destruct (k "") as [r'|] eqn:E; [|discriminate]. intros [= <-]. exists "". auto.
  - destruct (k (String c s)) as [r'|] eqn:E.
    + intros [= <-]. exists (String c s). auto.
    + destruct (p c); [|discriminate]. intros H.
      destruct (IH r H) as [s' [Hl Hk]]. exists s'. simpl. split; [lia | exact Hk].
Qed.

Lemma lazyPlus_consumes p : consumes (JS.RegExp.lazyPlus p).
Proof.
  intros k [|c s] r; simpl; [discriminate|].
  destruct (p c); [|discriminate]. intros H.
  destruct (lazyStar_consumes p k s r H) as [s' [Hl Hk]].
  exists s'. simpl. split; [lia | exact Hk].
Qed.

Lemma coordinateRe_consumes : consumes coordinateRe.
Proof.
  intros k s r H. unfold coordinateRe in H.
  apply opt_consumes in H. destruct H as [s1 [H1 H]].
  apply plus_consumes in H. destruct H as [s2 [H2 H]].
  apply opt_consumes in H. destruct H as [s3 [H3 H]].
  apply star_consumes in H. destruct H as [s4 [H4 H]].
  exists s4. split; [lia | exact H].
Qed.

Lemma group_consumes m (k : string -> JS.RegExp.cont) s r :
  consumes m -> JS.RegExp.group m k s = Some r ->
  exists g s', String.length s' <= String.length s /\ k g s' = Some r.
Proof.
  intros Hm H. unfold JS.RegExp.group in H. apply Hm in H.
  destruct H as [s' [Hl Hk]]. eauto.
Qed.

End Consumes.

Lemma tick_length : String.length tick = 7.
Proof. reflexivity. Qed.

Lemma geocodeRegex_shorter s m rest :
  geocodeRegex s = Some (m, rest) -> String.length rest < String.length s.
Proof.
  unfold geocodeRegex. intros H.
  apply lit_consumes in H. destruct H as [s1 [L1 H]]. rewrite tick_length in L1.
  apply star_consumes in H. destruct H as [s2 [L2 H]].
  apply (group_consumes _ _ _ _ (lazyPlus_consumes _)) in H. destruct H as [g1 [s3 [L3 H]]].
  apply lit_consumes in H. destruct H as [s4 [L4 H]].
  apply star_consumes in H. destruct H as [s5 [L5 H]].
  apply lit_consumes in H. destruct H as [s6 [L6 H]].
  apply (group_consumes _ _ _ _ coordinateRe_consumes) in H. destruct H as [g2 [s7 [L7 H]]].
  apply lit_consumes in H. destruct H as [s8 [L8 H]].
  apply star_consumes in H. destruct H as [s9 [L9 H]].
  apply (group_consumes _ _ _ _ coordinateRe_consumes) in H. destruct H as [g3 [s10 [L10 H]]].
  apply lit_consumes in H. destruct H as [s11 [L11 H]].
  injection H as _ <-. lia.
Qed.

Lemma exec_shorter s m rest :
  exec s = Some (m, rest) -> String.length rest < String.length s.
Proof.
  induction s as [|c s IH]; cbn [exec].
  - destruct (geocodeRegex "") as [[m' rest']|] eqn:E; [|discriminate].
    intros [= -> ->]. apply geocodeRegex_shorter in E. simpl in E. lia.
  - destruct (geocodeRegex (String c s)) as [[m' rest']|] eqn:E.
    + intros [= -> ->]. apply geocodeRegex_shorter in E. exact E.
    + intros H. specialize (IH H). simpl. lia.
Qed.

(** ** The occurrences of the pattern *)

(** The successive results of [regex.exec]: each search starts where
    the previous match ended, and the last one finds nothing. *)
Inductive Occurrences : string -> list GeoMatch -> Prop :=
  | occ_done s : exec s = None -> Occurrences s []
  | occ_next s m rest ms :
      exec s = Some (m, rest) -> Occurrences rest ms -> Occurrences s (m :: ms).

Lemma Occurrences_total n : forall s, String.length s < n -> exists ms, Occurrences s ms.
Proof.
  induction n as [|n IH]; intros s Hs; [lia|].
  destruct (exec s) as [[m rest]|] eqn:E.
  - pose proof (exec_shorter _ _ _ E) as Hr.
    destruct (IH rest ltac:(lia)) as [ms Hms].
    exists (m :: ms). eapply occ_next; eassumption.
  - exists []. apply occ_done, E.
Qed.


(** The loop stores the occurrences in order, as soon as it has fuel
    for the length of the input. *)
Lemma execLoop_Occurrences s ms :
  Occurrences s ms ->
  forall fuel locs, String.length s < fuel ->
  execLoop fuel s locs = fold_left storeMatch ms locs.
Proof.
  induction 1 as [s E|s m rest ms E H IH]; intros [|fuel] locs Hf; try lia; simpl; rewrite E.
  - reflexivity.
  - apply IH. apply exec_shorter in E. lia.
Qed.

Lemma parseGeocodeLocations_Occurrences content ms :
  Occurrences content ms ->
  parseGeocodeLocations content = fold_left storeMatch ms JS.Obj.empty.
Proof.
  intros H. unfold parseGeocodeLocations. apply execLoop_Occurrences; [exact H | lia].
Qed.

(** The key and the value an occurrence is stored under. *)
Definition matchKey (m : GeoMatch) : string := JS.toLowerCase (JS.trim (m1 m)).

Definition matchCoords (m : GeoMatch) : Coord :=
  {| lat := JS.parseFloat (m2 m); lng := JS.parseFloat (m3 m) |}.

(** After the loop a key holds what its last occurrence stored. *)
Lemma get_storeMatches k ms locs :
  JS.Obj.get k (fold_left storeMatch ms locs) =
  match find (fun m => String.eqb (matchKey m) k) (rev ms) with
  | Some m => Some (matchCoords m)
  | None => JS.Obj.get k locs
  end.
Proof.
  revert locs. induction ms as [|m ms IH] using rev_ind; intros locs; [reflexivity|].
  rewrite fold_left_app, rev_app_distr. cbn [fold_left rev app find].
  unfold storeMatch at 1. fold (matchKey m).
  destruct (String.eqb_spec (matchKey m) k) as [<-|Hne].
  - rewrite get_set_same. reflexivity.
  - rewrite get_set_other by (intros E; apply Hne; symmetry; exact E). apply IH.
Qed.

(** ** The pattern on well-formed entries *)

Local Open Scope string_scope.

Lemma sappend_assoc (a b c : string) : ((a ++ b) ++ c)%string = (a ++ b ++ c)%string.
Proof. induction a as [|x a IH]; simpl; [reflexivity | rewrite IH; reflexivity]. Qed.

Lemma sappend_length (a b : string) :
  String.length (a ++ b) = String.length a + String.length b.
Proof. induction a as [|x a IH]; simpl; [reflexivity | rewrite IH; reflexivity]. Qed.

Lemma stake_app (a b : string) :
  JS.stake (String.length (a ++ b) - String.length b) (a ++ b) = a.
Proof.
  rewrite sappend_length. replace (_ + _ - _) with (String.length a) by lia.
  induction a as [|x a IH]; simpl.
  - destruct b; reflexivity.
  - rewrite IH. reflexivity.
Qed.

(** The first character of [s] is in the class [p]. *)
Definition headIs (p : ascii -> bool) (s : string) : bool :=
  match s with String c _ => p c | EmptyString => false end.

Section Exact.
Context {R : Type}.
Implicit Types (k : @JS.RegExp.cont R) (r : R).

Lemma lit_exact p k s : JS.RegExp.lit p k (p ++ s) = k s.
Proof.
  unfold JS.RegExp.lit.
  assert (JS.stripPrefix p (p ++ s) = Some s) as -> by (apply stripPrefix_spec; reflexivity).
  reflexivity.
Qed.

Lemma lit_mismatch a p c s k :
  Ascii.eqb a c = false -> JS.RegExp.lit (String a p) k (String c s) = None.
Proof. intros H. unfold JS.RegExp.lit. simpl. rewrite H. reflexivity. Qed.

Lemma star_stop p k t : headIs p t = false -> JS.RegExp.star p k t = k t.
Proof. destruct t as [|c t]; simpl; [reflexivity|]. intros ->. reflexivity. Qed.

Lemma star_greedy p k w t r :
  JS.sforall p w = true -> JS.RegExp.star p k t = Some r ->
  JS.RegExp.star p k (w ++ t) = Some r.
Proof.
  intros Hw Ht. induction w as [|c w IH]; simpl; [exact Ht|].
  simpl in Hw. apply andb_prop in Hw. destruct Hw as [Hc Hw].
  rewrite Hc, (IH Hw). reflexivity.
Qed.

Lemma star_exact p k w t r :
  JS.sforall p w = true -> headIs p t = false -> k t = Some r ->
  JS.RegExp.star p k (w ++ t) = Some r.
Proof.
  intros Hw Ht Hk. apply star_greedy; [exact Hw|]. rewrite star_stop; assumption.
Qed.

Lemma opt_skip c k t : headIs (Ascii.eqb c) t = false -> JS.RegExp.opt c k t = k t.
Proof. destruct t as [|c' t]; simpl; [reflexivity|]. intros ->. reflexivity. Qed.

Lemma opt_take c k t r : k t = Some r -> JS.RegExp.opt c k (String c t) = Some r.
Proof. intros H. simpl. rewrite Ascii.eqb_refl, H. reflexivity. Qed.

Lemma lazyStar_exact p q k n t r :
  JS.sforall (fun c => p c && q c) n = true ->
  (forall c s, q c = true -> k (String c s) = None) ->
  k t = Some r ->
  JS.RegExp.lazyStar p k (n ++ t) = Some r.
Proof.
  intros Hn Hq Hk. induction n as [|c n IH]; simpl.
  - destruct t; simpl; rewrite Hk; reflexivity.
  - simpl in Hn. apply andb_prop in Hn. destruct Hn as [Hc Hn].
    apply andb_prop in Hc. destruct Hc as [Hp Hqc].
    rewrite (Hq c _ Hqc), Hp. apply IH, Hn.
Qed.

End Exact.

(** The text of a coordinate: a sign, digits, and a fraction or none. *)
Record CoordinateText : Type := {
  negative : bool;
  whole : string;
  fraction : option string
}.

Definition coordinateText (c : CoordinateText) : string :=
  ((if negative c then "-" else "") ++ whole c ++
   match fraction c with Some f => "." ++ f | None => "" end)%string.

Definition goodCoordinate (c : CoordinateText) : bool :=
  JS.truthy (whole c) && JS.sforall JS.isDigit (whole c) &&
  match fraction c with Some f => JS.sforall JS.isDigit f | None => true end.

(** A name the lazy group captures whole: it is not empty, does not
    start with white space, and has no colon and no line break. *)
Definition goodName (n : string) : bool :=
  headIs (fun c => negb (JS.isWhiteSpace c)) n &&
  JS.sforall (fun c => JS.isDot c && negb (Ascii.eqb c ":")) n.

Lemma coordinateRe_exact {R} (k : @JS.RegExp.cont R) c t r :
  goodCoordinate c = true ->
  headIs (fun x => JS.isDigit x || Ascii.eqb "." x) t = false ->
  k t = Some r ->
  coordinateRe k (coordinateText c ++ t) = Some r.
Proof.
  intros Hc Ht Hk. unfold goodCoordinate in Hc.
  apply andb_prop in Hc. destruct Hc as [Hc Hf].
  apply andb_prop in Hc. destruct Hc as [Hne Hw].
  assert (Htd : headIs JS.isDigit t = false).
  { destruct t as [|x t]; [reflexivity|]. simpl in *. apply orb_false_iff in Ht. tauto. }
  assert (Htp : headIs (Ascii.eqb ".") t = false).
  { destruct t as [|x t]; [reflexivity|]. simpl in *. apply orb_false_iff in Ht. tauto. }
  unfold coordinateRe, coordinateText. rewrite !sappend_assoc.
  set (K1 := JS.RegExp.opt "." (JS.RegExp.star JS.isDigit k)).
  assert (H1 : JS.RegExp.star JS.isDigit K1
                 (match fraction c with Some f => "." ++ f | None => "" end ++ t) = Some r).
  { destruct (fraction c) as [f|].
    - rewrite sappend_assoc. rewrite star_stop by reflexivity.
      unfold K1. apply opt_take. apply star_exact; assumption.
    - simpl. rewrite star_stop by exact Htd.
      unfold K1. rewrite opt_skip by exact Htp. rewrite star_stop by exact Htd. exact Hk. }
  assert (H2 : JS.RegExp.plus JS.isDigit K1
                 (whole c ++ match fraction c with Some f => "." ++ f | None => "" end ++ t)
               = Some r).
  { destruct (whole c) as [|d w]; [discriminate|].
    simpl in Hw. apply andb_prop in Hw. destruct Hw as [Hd Hw].
    simpl. rewrite Hd. apply star_greedy; assumption. }
  assert (H3 : forall x, headIs (Ascii.eqb "-") (whole c ++ x) = false).
  { intros x. destruct (whole c) as [|d w]; [discriminate|].
    cbn [JS.sforall] in Hw. apply andb_prop in Hw. destruct Hw as [Hd _].
    cbn [append headIs]. apply Ascii.eqb_neq. intros <-. discriminate. }
  destruct (negative c); simpl append.
  - apply opt_take. exact H2.
  - rewrite opt_skip; [exact H2 | apply H3].
Qed.

Lemma group_coordinate_exact {R} (K : string -> @JS.RegExp.cont R) c t r :
  goodCoordinate c = true ->
  headIs (fun x => JS.isDigit x || Ascii.eqb "." x) t = false ->
  K (coordinateText c) t = Some r ->
  JS.RegExp.group coordinateRe K (coordinateText c ++ t) = Some r.
Proof.
  intros Hc Ht HK. unfold JS.RegExp.group.
  apply coordinateRe_exact; [exact Hc | exact Ht|]. rewrite stake_app. exact HK.
Qed.

Lemma group_name_exact {R} (K : string -> @JS.RegExp.cont R) n t r :
  goodName n = true ->
  (forall g c s, Ascii.eqb c ":" = false -> K g (String c s) = None) ->
  K n t = Some r ->
  JS.RegExp.group (JS.RegExp.lazyPlus JS.isDot) K (n ++ t) = Some r.
Proof.
  intros Hn Hcolon HK. unfold goodName in Hn.
  apply andb_prop in Hn. destruct Hn as [Hhead Hn].
  unfold JS.RegExp.group.
  set (k := fun rest => K (JS.stake (String.length (n ++ t) - String.length rest) (n ++ t)) rest).
  assert (Hk : k t = Some r) by (unfold k; rewrite stake_app; exact HK).
  assert (Hq : forall c s, negb (Ascii.eqb c ":") = true -> k (String c s) = None).
  { intros c s Hc. apply negb_true_iff in Hc. unfold k. apply Hcolon, Hc. }
  clearbody k.
  destruct n as [|c n]; [discriminate|].
  simpl in Hn. apply andb_prop in Hn. destruct Hn as [Hc Hn].
  apply andb_prop in Hc. destruct Hc as [Hdot _].
  simpl. rewrite Hdot.
  apply (lazyStar_exact _ (fun c => negb (Ascii.eqb c ":"))); [exact Hn | exact Hq | exact Hk].
Qed.

(** A well-formed entry: the glyph, a space, the name, a colon and a
    space, and the two coordinates in parentheses separated by a comma
    and a space. *)
Record EntryLine : Type := {
  entryName : string;
  entryLat : CoordinateText;
  entryLng : CoordinateText
}.

Definition entryText (e : EntryLine) : string :=
  tick ++ " " ++ entryName e ++ ": (" ++ coordinateText (entryLat e) ++ ", "
       ++ coordinateText (entryLng e) ++ ")".

Definition goodEntry (e : EntryLine) : bool :=
  goodName (entryName e) && goodCoordinate (entryLat e) && goodCoordinate (entryLng e).

Definition entryMatch (e : EntryLine) : GeoMatch :=
  {| m1 := entryName e;
     m2 := coordinateText (entryLat e);
     m3 := coordinateText (entryLng e) |}.

Lemma goodName_head n t : goodName n = true -> headIs JS.isWhiteSpace (n ++ t) = false.
Proof.
  unfold goodName. intros H. apply andb_prop in H. destruct H as [H _].
  destruct n as [|c n]; [discriminate|]. simpl in *. apply negb_true_iff, H.
Qed.

Lemma isDigit_not_space d : JS.isDigit d = true -> JS.isWhiteSpace d = false.
Proof.
  unfold JS.isDigit, JS.isWhiteSpace. intros H.
  apply andb_prop in H. destruct H as [H1 H2].
  apply Nat.leb_le in H1. apply Nat.leb_le in H2.
  apply orb_false_iff. split.
  - apply andb_false_iff. right. apply Nat.leb_gt. lia.
  - apply Nat.eqb_neq. lia.
Qed.

Lemma goodCoordinate_head c t :
  goodCoordinate c = true -> headIs JS.isWhiteSpace (coordinateText c ++ t) = false.
Proof.
  unfold goodCoordinate, coordinateText. intros H.
  apply andb_prop in H. destruct H as [H _]. apply andb_prop in H. destruct H as [Hne H].
  destruct (negative c); [reflexivity|].
  destruct (whole c) as [|d w]; [discriminate|]. cbn [JS.sforall] in H.
  apply andb_prop in H. destruct H as [Hd _]. cbn [append headIs].
  apply isDigit_not_space, Hd.
Qed.

(** The pattern matches a well-formed entry at the head of the input,
    captures its three parts and stops right after it. *)
Lemma geocodeRegex_entry e rest :
  goodEntry e = true -> geocodeRegex (entryText e ++ rest) = Some (entryMatch e, rest).
Proof.
  unfold goodEntry. intros H.
  apply andb_prop in H. destruct H as [H Hlng]. apply andb_prop in H. destruct H as [Hname Hlat].
  unfold entryText, geocodeRegex.
  change ": (" with (":" ++ " " ++ "("). change ", " with ("," ++ " ").
  rewrite !sappend_assoc.
  rewrite lit_exact.
  apply (star_exact _ _ " "); [reflexivity | apply goodName_head, Hname |].
  apply group_name_exact; [exact Hname | |].
  { intros g c s Hc. apply lit_mismatch. rewrite Ascii.eqb_sym. exact Hc. }
  rewrite (lit_exact ":").
  apply (star_exact _ _ " "); [reflexivity | reflexivity |].
  rewrite (lit_exact "(").
  apply group_coordinate_exact; [exact Hlat | reflexivity |].
  rewrite (lit_exact ",").
  apply (star_exact _ _ " "); [reflexivity | apply goodCoordinate_head, Hlng |].
  apply group_coordinate_exact; [exact Hlng | reflexivity |].
  rewrite (lit_exact ")"). reflexivity.
Qed.

(** *** Text between the entries *)

Definition tick0 : ascii := ascii_of_nat 195.

(** Text in which the glyph does not occur. *)
Definition goodJunk (j : string) : bool := negb (JS.includes j tick).

Lemma sappend_nil_r (s : string) : s ++ "" = s.
Proof. induction s as [|c s IH]; simpl; [reflexivity | rewrite IH; reflexivity]. Qed.

(** A prefix of [j ++ rest] is a prefix of [j], or [j] and more. *)
Lemma stripPrefix_app p j rest x :
  JS.stripPrefix p (j ++ rest) = Some x ->
  (exists y, JS.stripPrefix p j = Some y) \/
  (exists b, p = j ++ b /\ b <> "" /\ JS.stripPrefix b rest = Some x).
Proof.
  revert j. induction p as [|a p IH]; intros j H.
  - left. destruct j; simpl; eauto.
  - destruct j as [|c j].
    + right. exists (String a p). simpl in *. repeat split; [discriminate | exact H].
    + simpl in H. simpl. destruct (Ascii.eqb_spec a c) as [->|]; [|discriminate].
      destruct (IH _ H) as [Hy|[b [-> [Hb Hx]]]]; [left; exact Hy|].
      right. exists b. auto.
Qed.

(** The first byte of the glyph does not occur again in it. *)
Lemma tick_suffix_head j b :
  tick = j ++ b -> j <> "" -> headIs (Ascii.eqb tick0) b = false.
Proof.
  intros E Hj. destruct j as [|c0 j]; [contradiction|]. clear Hj.
  unfold tick in E. injection E as _ E.
  repeat (destruct j as [|? j]; [simpl in E; subst b; reflexivity | injection E as _ E]).
  destruct j; [|discriminate]. simpl in E. subst b. reflexivity.
Qed.

Lemma geocodeRegex_needs_tick s : JS.startsWith tick s = false -> geocodeRegex s = None.
Proof.
  unfold JS.startsWith, geocodeRegex, JS.RegExp.lit.
  destruct (JS.stripPrefix tick s); [discriminate | reflexivity].
Qed.

(** The search skips text without the glyph when what follows is the
    end of the input or starts with the glyph. *)
Lemma exec_junk j rest :
  goodJunk j = true -> rest = "" \/ headIs (Ascii.eqb tick0) rest = true ->
  exec (j ++ rest) = exec rest.
Proof.
  unfold goodJunk. intros Hj Hrest. apply negb_true_iff in Hj.
  induction j as [|c j IH]; [reflexivity|].
  cbn [JS.includes] in Hj. apply orb_false_iff in Hj. destruct Hj as [Hhere Hj].
  cbn [append exec]. rewrite geocodeRegex_needs_tick; [exact (IH Hj)|].
  unfold JS.startsWith in *.
  change (String c (j ++ rest)) with (String c j ++ rest).
  destruct (JS.stripPrefix tick (String c j ++ rest)) as [x|] eqn:E; [|reflexivity].
  exfalso. destruct (stripPrefix_app _ _ _ _ E) as [[y Hy]|[b [Hb [Hne Hx]]]].
  - rewrite Hy in Hhere. discriminate.
  - pose proof (tick_suffix_head _ _ Hb ltac:(discriminate)) as Hhead.
    destruct Hrest as [->|Hrest].
    + destruct b; [contradiction | discriminate].
    + destruct b as [|b0 b]; [contradiction|]. destruct rest as [|r0 rest]; [discriminate|].
      simpl in Hx, Hhead, Hrest.
      destruct (Ascii.eqb_spec b0 r0) as [->|]; [|discriminate]. congruence.
Qed.

Lemma exec_here s r : geocodeRegex s = Some r -> exec s = Some r.
Proof. intros H. destruct s; cbn [exec]; rewrite H; reflexivity. Qed.

(** A table of well-formed entries, each after some text without the
    glyph, and some such text at the end. *)
Fixpoint documentText (doc : list (string * EntryLine)) (tail : string) : string :=
  match doc with
  | [] => tail
  | (j, e) :: doc' => j ++ entryText e ++ documentText doc' tail
  end.

Definition goodDocument (doc : list (string * EntryLine)) (tail : string) : bool :=
  forallb (fun je => goodJunk (fst je) && goodEntry (snd je)) doc && goodJunk tail.

Lemma Occurrences_document doc tail :
  goodDocument doc tail = true ->
  Occurrences (documentText doc tail) (map (fun je => entryMatch (snd je)) doc).
Proof.
  unfold goodDocument. intros H. apply andb_prop in H. destruct H as [Hdoc Htail].
  induction doc as [|[j e] doc IH]; cbn [documentText map].
  - apply occ_done. rewrite <- (sappend_nil_r tail).
    rewrite exec_junk; [reflexivity | exact Htail | left; reflexivity].
  - cbn [forallb fst snd] in Hdoc. apply andb_prop in Hdoc. destruct Hdoc as [Hje Hdoc].
    apply andb_prop in Hje. destruct Hje as [Hj He].
    apply occ_next with (rest := documentText doc tail); [|exact (IH Hdoc)].
    rewrite exec_junk; [| exact Hj | right; reflexivity].
    apply exec_here, geocodeRegex_entry, He.
Qed.

Local Close Scope string_scope.
Local Open Scope string_scope.
Local Open Scope list_scope.
Local Open Scope nat_scope.

(** ** The geocode table loader *)




Definition sampleTable : list (string * EntryLine) :=
  [ ("Geocoded:" ++ String "010" "",
     {| entryName := "Springfield";
        entryLat := {| negative := false; whole := "39"; fraction := Some "8" |};
        entryLng := {| negative := true; whole := "89"; fraction := Some "6" |} |});
    (String "010" "no match for Nowhere" ++ String "010" "",
     {| entryName := "springfield";
        entryLat := {| negative := false; whole := "40"; fraction := None |};
        entryLng := {| negative := true; whole := "90"; fraction := Some "" |} |}) ]%string.


(** ** Well-formed pseudo-lists are read back *)











(** ** Worked examples *)

Example parsePseudoList_ex1 :
  parsePseudoList (Some "['Theft', 'Assault']") = ["Theft"; "Assault"].
Proof. reflexivity. Qed.

Example parsePseudoList_ex2 :
  parsePseudoList (Some "[' Drug Trafficking ', '', 'Fraud',]") = ["Drug Trafficking"; "Fraud"].
Proof. reflexivity. Qed.

Definition recordAt (arrested : string) : CsvRecord :=
  {| ARRESTED := Some arrested; CRIME_CATEGORIES := None; CONVICTED_OF := None;
     PICTURE_LOCAL := None; ID := None; NAME := None; COUNTRY := None;
     GANG_AFFILIATION := None; DEEPFACE_age := None;
     DEEPFACE_gender_dominant := None; DEEPFACE_race_dominant := None;
     DEEPFACE_emotion_dominant := None |}.

(** The example of the specification: one geocode line for Springfield,
    a record arrested in Springfield and one arrested in an unknown
    city. *)
Example springfield_example :
  let files :=
    {| geocode_locations_txt := (tick ++ " Springfield: (39.8, -89.6)")%string;
       transformed_df_csv := [recordAt "Springfield"; recordAt "Unknown City"] |} in
  map (fun g => (location g, JS.toFixed (group_lat g) 4, JS.toFixed (group_lng g) 4,
                 List.length (people g)))
      (locations (processData files)) =
  [ ("Springfield", "39.8000", "-89.6000", 1);
    ("Unknown City", "39.8283", "-98.5795", 1) ].
Proof. vm_compute. reflexivity. Qed.

(** The sign survives rounding to zero: [toFixed] keeps the minus of a
    negative value that rounds to zero, so such a value and a
    non-negative one get different keys. *)
Example toFixed_negative_zero :
  JS.toFixed (JS.parseFloat "-0.00001") 4 = "-0.0000" /\
  JS.toFixed (JS.parseFloat "0.00001") 4 = "0.0000" /\
  JS.toFixed (JS.parseFloat "-0") 4 = "0.0000".
Proof. vm_compute. repeat split. Qed.

Example toFixed_examples :
  JS.toFixed (JS.parseFloat "1.005") 2 = "1.00" /\
  JS.toFixed (JS.parseFloat "0.25") 1 = "0.3" /\
  JS.toFixed (JS.parseFloat "1e21") 4 = "1e+21" /\
  JS.toFixed (JS.parseFloat "123456789012345678901234567890") 4 = "1.2345678901234568e+29" /\
  JS.toFixed (JS.add (JS.parseFloat "0.1") (JS.parseFloat "0.2")) 17 = "0.30000000000000004" /\
  JS.parseFloat "  12.5px" = JS.parseFloat "12.5" /\
  JS.parseFloat "px" = JS.NaN.
Proof. vm_compute. repeat split. Qed.


Definition recordOf (arrested categories : string) : CsvRecord :=
  {| ARRESTED := Some arrested; CRIME_CATEGORIES := Some categories; CONVICTED_OF := None;
     PICTURE_LOCAL := None; ID := None; NAME := None; COUNTRY := None;
     GANG_AFFILIATION := None; DEEPFACE_age := None;
     DEEPFACE_gender_dominant := None; DEEPFACE_race_dominant := None;
     DEEPFACE_emotion_dominant := None |}.

(** Filtering by a category that one person has gives the one group
    with that one person; a category nobody has gives nothing. *)
Example filter_example :
  let files :=
    {| geocode_locations_txt := (tick ++ " Springfield: (39.8, -89.6)")%string;
       transformed_df_csv :=
         [ recordOf "Springfield" "['Theft', 'Assault']";
           recordOf "Springfield" "['Fraud']";
           recordOf "Elsewhere" "['Theft']" ] |} in
  let answer category :=
    match fst (handle files (GetApiLocations category) initialServer) with
    | JsonLocations body => map (fun g => (location g, map categories (people g))) body
    | _ => []
    end in
  answer None =
    [ ("Springfield", [["Theft"; "Assault"]; ["Fraud"]]); ("Elsewhere", [["Theft"]]) ] /\
  answer (Some "all") = answer None /\
  answer (Some "Fraud") = [ ("Springfield", [["Fraud"]]) ] /\
  answer (Some "Theft") =
    [ ("Springfield", [["Theft"; "Assault"]]); ("Elsewhere", [["Theft"]]) ] /\
  answer (Some "theft") = [].
Proof. vm_compute. repeat split. Qed.

(** * Further properties of the aggregator *)

(** ** Dictionaries keep one entry per key *)

Section ObjKeys.
Context {V : Type}.
Implicit Types (o : JS.Obj.t V) (k : string) (v : V).

Lemma get_None_keys k o : JS.Obj.get k o = None <-> ~ In k (JS.Obj.keys o).
Proof.
  unfold JS.Obj.keys. induction o as [|[k0 v0] o IH]; simpl; [tauto|].
  destruct (String.eqb_spec k0 k) as [->|Hne]; [split; [discriminate | intros H; exfalso; auto]|].
  rewrite IH. tauto.
Qed.



Lemma keys_update k v o : JS.Obj.keys (JS.Obj.update k v o) = JS.Obj.keys o.
Proof.
  unfold JS.Obj.keys. induction o as [|[k0 v0] o IH]; simpl; [reflexivity|].
  destruct (String.eqb k0 k); simpl; [reflexivity | rewrite IH; reflexivity].
Qed.

Lemma keys_insertIndex i k v o :
  Permutation (k :: JS.Obj.keys o) (JS.Obj.keys (JS.Obj.insertIndex i k v o)).
Proof.
  unfold JS.Obj.keys. induction o as [|[k0 v0] o IH]; simpl; [reflexivity|].
  destruct (JS.Obj.arrayIndex k0) as [j|]; [destruct (i <? j)%Z|]; simpl; try reflexivity.
  rewrite perm_swap. constructor. exact IH.
Qed.

Lemma keys_set k v o :
  Permutation (JS.Obj.keys (JS.Obj.set k v o))
              (match JS.Obj.get k o with Some _ => JS.Obj.keys o | None => k :: JS.Obj.keys o end).
Proof.
  unfold JS.Obj.set. destruct (JS.Obj.get k o) as [old|].
  - rewrite keys_update. reflexivity.
  - destruct (JS.Obj.arrayIndex k).
    + symmetry. apply keys_insertIndex.
    + unfold JS.Obj.keys. rewrite map_app. simpl.
      rewrite Permutation_app_comm. reflexivity.
Qed.

Lemma set_NoDup k v o : NoDup (JS.Obj.keys o) -> NoDup (JS.Obj.keys (JS.Obj.set k v o)).
Proof.
  intros H. eapply Permutation_NoDup; [symmetry; apply keys_set|].
  destruct (JS.Obj.get k o) as [old|] eqn:E; [exact H|].
  constructor; [apply get_None_keys, E | exact H].
Qed.


End ObjKeys.

(** ** The tallies *)



Definition positive (counts : JS.Obj.t nat) : Prop :=
  forall k n, JS.Obj.get k counts = Some n -> 0 < n.






(** What each record contributes to the four tallies. *)
Definition categoriesOf (records : list CsvRecord) : list string :=
  flat_map (fun r => parsePseudoList (CRIME_CATEGORIES r)) records.






(** ** What the statistics count *)





(** The records whose field is exactly [x]. *)
Definition recordsWith (field : CsvRecord -> option string) (x : string)
    (records : list CsvRecord) : nat :=
  List.length (filter (fun r => match field r with
                                | Some y => String.eqb y x
                                | None => false
                                end) records).













(** ** The gender totals *)

Lemma aggregate_genders geo records acc :
  let acc' := fold_left (processRecord geo) records acc in
  totalMen acc' = totalMen acc + recordsWith DEEPFACE_gender_dominant "Man" records /\
  totalWomen acc' = totalWomen acc + recordsWith DEEPFACE_gender_dominant "Woman" records.
Proof.
  revert acc. unfold recordsWith.
  induction records as [|r rs IH]; intros acc; cbn [fold_left filter]; [simpl; lia|].
  destruct (IH (processRecord geo acc r)) as [H1 H2]. cbv zeta. rewrite H1, H2.
  cbn [processRecord totalMen totalWomen].
  destruct (DEEPFACE_gender_dominant r) as [g|]; [|simpl; lia].
  destruct (String.eqb_spec g "Man") as [->|Hm]; [simpl; lia|].
  destruct (String.eqb g "Woman"); simpl; lia.
Qed.

(** X5. The statistics count the records: [totalRecords] is their
    number, [totalMen] the number of records whose gender field is exactly
    Man, [totalWomen] the number whose gender field is exactly Woman; any
    other value, or none, is counted in neither, so the two add up to at
    most [totalRecords]. *)
Theorem gender_totals (files : Files) :
  let s := stats (processData files) in
  let records := transformed_df_csv files in
  totalRecords s = List.length records /\
  statsTotalMen s = recordsWith DEEPFACE_gender_dominant "Man" records /\
  statsTotalWomen s = recordsWith DEEPFACE_gender_dominant "Woman" records /\
  statsTotalMen s + statsTotalWomen s <= totalRecords s.
Proof.
  unfold processData, summarize, aggregate, loadCSVData.
  cbn [stats totalRecords statsTotalMen statsTotalWomen].
  destruct (aggregate_genders (parseGeocodeLocations (geocode_locations_txt files))
              (transformed_df_csv files) initialAcc) as [-> ->].
  cbn [initialAcc totalMen totalWomen]. repeat split.
  unfold recordsWith. induction (transformed_df_csv files) as [|r rs IH]; [simpl; lia|].
  cbn [filter]. destruct (DEEPFACE_gender_dominant r) as [g|]; [|simpl in *; lia].
  destruct (String.eqb_spec g "Man") as [->|Hm]; [simpl in *; lia|].
  destruct (String.eqb g "Woman"); simpl in *; lia.
Qed.

(** ** The people of the groups *)

(** All the people of a dictionary of groups, group after group. *)
Definition allPeople (groups : JS.Obj.t LocationGroup) : list Person :=
  List.concat (map people (JS.Obj.values groups)).

Lemma allPeople_update k g g' p groups :
  JS.Obj.get k groups = Some g -> people g' = people g ++ [p] ->
  Permutation (allPeople (JS.Obj.update k g' groups)) (p :: allPeople groups).
Proof.
  unfold allPeople, JS.Obj.values. intros Hget Hp.
  induction groups as [|[k0 g0] groups IH]; simpl in *; [discriminate|].
  destruct (String.eqb k0 k); simpl.
  - injection Hget as ->. rewrite Hp, <- app_assoc.
    rewrite (Permutation_app_comm (people g)). simpl.
    apply Permutation_cons_app with (l1 := []). simpl.
    apply Permutation_app_comm.
  - rewrite (IH Hget). symmetry. apply Permutation_middle.
Qed.

Lemma allPeople_insertIndex i k g groups :
  people g = [] -> allPeople (JS.Obj.insertIndex i k g groups) = allPeople groups.
Proof.
  unfold allPeople, JS.Obj.values. intros Hg.
  induction groups as [|[k0 g0] groups IH]; simpl; [rewrite Hg; reflexivity|].
  destruct (JS.Obj.arrayIndex k0) as [j|]; [destruct (i <? j)%Z|]; simpl;
    rewrite ?Hg, ?IH; reflexivity.
Qed.

Lemma allPeople_set_new k g groups :
  JS.Obj.get k groups = None -> people g = [] ->
  allPeople (JS.Obj.set k g groups) = allPeople groups.
Proof.
  intros Hget Hg. unfold JS.Obj.set. rewrite Hget.
  destruct (JS.Obj.arrayIndex k); [apply allPeople_insertIndex, Hg|].
  unfold allPeople, JS.Obj.values. rewrite !map_app, concat_app. simpl.
  rewrite Hg. simpl. apply app_nil_r.
Qed.

Lemma pushPerson_people coords arrested p groups :
  Permutation (allPeople (pushPerson coords arrested p groups)) (p :: allPeople groups).
Proof.
  unfold pushPerson. set (key := locationKey coords).
  destruct (JS.Obj.get key groups) as [g|] eqn:E.
  - rewrite E. unfold JS.Obj.set. rewrite E.
    apply (allPeople_update key g); [exact E | reflexivity].
  - rewrite get_set_same.
    set (fresh := {| group_lat := lat coords; group_lng := lng coords;
                     location := arrested; people := [] |}).
    unfold JS.Obj.set at 1. rewrite get_set_same.
    rewrite (allPeople_update key fresh) by (apply get_set_same || reflexivity).
    rewrite (allPeople_set_new key fresh groups E eq_refl). reflexivity.
Qed.

Lemma aggregate_people geo records acc :
  Permutation (allPeople (locationGroups (fold_left (processRecord geo) records acc)))
              (allPeople (locationGroups acc) ++ map mkPerson records).
Proof.
  revert acc. induction records as [|r rs IH]; intros acc; cbn [fold_left map].
  - rewrite app_nil_r. reflexivity.
  - rewrite IH. cbn [processRecord locationGroups]. rewrite pushPerson_people.
    apply Permutation_middle.
Qed.

Lemma processData_people files :
  Permutation (List.concat (map people (locations (processData files))))
              (map mkPerson (transformed_df_csv files)).
Proof.
  unfold processData, summarize, aggregate, loadCSVData. cbn [locations].
  apply (aggregate_people _ _ initialAcc).
Qed.

(** X6. The people of all the groups of the unfiltered output, taken
    together, are the persons derived from the records: each record gives
    one person, in one group, and no group holds anyone else. *)
Theorem people_are_the_records (files : Files) :
  Permutation (List.concat (map people (locations (processData files))))
              (map mkPerson (transformed_df_csv files)).
Proof.
  unfold processData, summarize, aggregate, loadCSVData. cbn [locations].
  apply (aggregate_people _ _ initialAcc).
Qed.

Lemma members_In geo records k r :
  In r (members geo records k) -> In r records /\ keyOf geo r = k.
Proof.
  unfold members. intros H. apply filter_In in H. destruct H as [H E].
  split; [exact H | apply String.eqb_eq, E].
Qed.

(** X7. No group of the unfiltered output is empty, and there are at
    most as many groups as records.  A group shows the raw arrest location
    of the record of its first person and carries the resolved coordinates
    of that record; all its people belong to records with the same group
    key. *)
Theorem groups_are_made_by_their_first_record (files : Files) :
  let geo := parseGeocodeLocations (geocode_locations_txt files) in
  let records := transformed_df_csv files in
  let groups := locations (processData files) in
  Forall (fun g =>
            exists first others,
              In first records /\
              people g = mkPerson first :: map mkPerson others /\
              Forall (fun r => In r records /\ keyOf geo r = keyOf geo first) others /\
              location g = orEmpty (ARRESTED first) /\
              group_lat g = lat (resolveCoords geo first) /\
              group_lng g = lng (resolveCoords geo first)) groups /\
  List.length groups <= List.length records.
Proof.
  intros geo records groups. split.
  - unfold groups, processData, summarize, loadCSVData. cbn [locations].
    fold geo records. rewrite aggregate_groups.
    unfold JS.Obj.values, tabulate. rewrite map_map. cbn [snd].
    apply Forall_forall. intros g Hg. apply in_map_iff in Hg.
    destruct Hg as [k [<- Hk]]. apply (proj1 (distinct_In _ _)) in Hk.
    destruct (members_cons _ _ _ Hk) as [first [others Hm]].
    assert (Hall : forall r, In r (first :: others) -> In r records /\ keyOf geo r = k).
    { intros r Hr. apply members_In. rewrite Hm. exact Hr. }
    exists first, others. unfold groupOf. rewrite Hm.
    cbn [hd map people location group_lat group_lng].
    destruct (Hall first (or_introl eq_refl)) as [Hf Hkf].
    repeat split; try assumption.
    apply Forall_forall. intros r Hr.
    destruct (Hall r (or_intror Hr)) as [Hr1 Hr2]. split; [exact Hr1 | rewrite Hr2, Hkf; reflexivity].
  - pose proof (processData_people files) as Hperm.
    apply Permutation_length in Hperm. rewrite length_map in Hperm.
    fold records in Hperm. rewrite <- Hperm. fold groups.
    assert (Hne : Forall (fun g => people g <> []) groups).
    { unfold groups, processData, summarize, loadCSVData. cbn [locations].
      fold geo records. rewrite aggregate_groups.
      unfold JS.Obj.values, tabulate. rewrite map_map. cbn [snd].
      apply Forall_forall. intros g Hg. apply in_map_iff in Hg.
      destruct Hg as [k [<- Hk]]. apply (proj1 (distinct_In _ _)) in Hk.
      destruct (members_cons _ _ _ Hk) as [first [others Hm]].
      unfold groupOf. rewrite Hm. discriminate. }
    clear Hperm. induction Hne as [|g gs Hg Hgs IH]; [simpl; lia|].
    cbn [map List.concat List.length]. rewrite length_app.
    destruct (people g); [contradiction|]. simpl. lia.
Qed.

(** ** The category list and the filter *)

Lemma aggregate_allCategories geo records acc :
  allCategories (fold_left (processRecord geo) records acc) =
  fold_left (fun s c => setAdd c s) (categoriesOf records) (allCategories acc).
Proof.
  revert acc. unfold categoriesOf.
  induction records as [|r rs IH]; intros acc; [reflexivity|].
  cbn [fold_left flat_map]. rewrite IH, fold_left_app. reflexivity.
Qed.





Lemma dataCategories_distinct files :
  dataCategories (processData files) =
  JS.sortBy JS.compareStrings (distinct (categoriesOf (transformed_df_csv files))).
Proof.
  unfold processData, summarize, aggregate, loadCSVData. cbn [dataCategories].
  rewrite aggregate_allCategories. reflexivity.
Qed.

Lemma dataCategories_In files c :
  In c (dataCategories (processData files)) <->
  In c (categoriesOf (transformed_df_csv files)).
Proof.
  rewrite dataCategories_distinct.
  rewrite <- (distinct_In (categoriesOf (transformed_df_csv files)) c).
  split; apply Permutation_in; [symmetry|]; apply sortBy_Permutation.
Qed.


Lemma filter_length_Permutation {A} (f : A -> bool) l l' :
  Permutation l l' -> List.length (filter f l) = List.length (filter f l').
Proof.
  induction 1 as [|x l l' _ IH|x y l|l l' l'' _ IH1 _ IH2]; simpl.
  - reflexivity.
  - destruct (f x); simpl; rewrite IH; reflexivity.
  - destruct (f x), (f y); reflexivity.
  - rewrite IH1. exact IH2.
Qed.

Lemma filter_concat_length {A} (f : A -> bool) ls :
  List.length (filter f (List.concat ls)) =
  list_sum (map (fun l => List.length (filter f l)) ls).
Proof.
  induction ls as [|l ls IH]; [reflexivity|].
  cbn [List.concat map list_sum]. rewrite filter_app, length_app, IH. reflexivity.
Qed.

Lemma restricted_sizes c groups :
  list_sum (map (fun g => List.length (people g))
                (map (restrictTo c)
                     (filter (fun loc => existsb (hasCategory c) (people loc)) groups))) =
  list_sum (map (fun g => List.length (filter (hasCategory c) (people g))) groups).
Proof.
  induction groups as [|g groups IH]; [reflexivity|].
  cbn [filter]. destruct (existsb (hasCategory c) (people g)) eqn:E.
  - cbn [map restrictTo people]. unfold list_sum in *. cbn [fold_right]. rewrite IH.
    reflexivity.
  - cbn [map]. unfold list_sum in *. cbn [fold_right]. rewrite IH.
    rewrite <- filter_nonempty_existsb in E. apply Nat.ltb_ge in E.
    assert (List.length (filter (hasCategory c) (people g)) = 0) as -> by lia. reflexivity.
Qed.

Lemma filterLocations_count data persons c :
  Permutation (List.concat (map people (locations data))) persons ->
  c <> "" -> c <> "all" ->
  list_sum (map (fun g => List.length (people g)) (filterLocations (Some c) data)) =
  List.length (filter (hasCategory c) persons).
Proof.
  intros Hperm Hne Hall. rewrite (filterLocations_category _ _ Hne Hall), restricted_sizes.
  rewrite <- (map_map people (fun l => List.length (filter (hasCategory c) l))).
  rewrite <- filter_concat_length. apply filter_length_Permutation, Hperm.
Qed.

Lemma filter_persons c records :
  List.length (filter (hasCategory c) (map mkPerson records)) =
  List.length (filter (fun r => JS.arrayIncludes (parsePseudoList (CRIME_CATEGORIES r)) c)
                      records).
Proof.
  induction records as [|r rs IH]; [reflexivity|].
  cbn [map filter]. unfold hasCategory at 1. cbn [mkPerson categories].
  destruct (JS.arrayIncludes (parsePseudoList (CRIME_CATEGORIES r)) c); simpl; rewrite IH;
    reflexivity.
Qed.

(** X9. For a category that is neither empty nor [all], the people of
    the filtered response, counted over its groups, are as many as the
    records whose parsed categories contain that category. *)
Theorem filtered_people_count (files : Files) (c : string) :
  c <> "" -> c <> "all" ->
  list_sum (map (fun g => List.length (people g))
                (filterLocations (Some c) (processData files))) =
  List.length (filter (fun r => JS.arrayIncludes (parsePseudoList (CRIME_CATEGORIES r)) c)
                      (transformed_df_csv files)).
Proof.
  intros Hne Hall.
  rewrite (filterLocations_count _ _ c (processData_people files) Hne Hall).
  apply filter_persons.
Qed.

Definition sampleFiles : Files :=
  {| geocode_locations_txt := (tick ++ " Springfield: (39.8, -89.6)")%string;
     transformed_df_csv :=
       [ recordOf "Springfield" "['Theft', 'Assault']";
         recordOf "Springfield" "['Fraud']";
         recordOf "Elsewhere" "['Theft', 'all']" ] |}.

Lemma filtered_people_count_witness :
  list_sum (map (fun g => List.length (people g))
                (filterLocations (Some "Theft") (processData sampleFiles))) = 2.
Proof.
  rewrite (filtered_people_count sampleFiles "Theft"); [reflexivity | discriminate | discriminate].
Defined.

(** X10. Every category of the served category list other than [all]
    has results: filtering by it gives at least one group.  (A category
    spelled [all] is listed like any other, but selecting it returns
    everything.) *)
Theorem listed_category_has_results (files : Files) (c : string) :
  In c (dataCategories (processData files)) -> c <> "all" ->
  exists g gs, filterLocations (Some c) (processData files) = g :: gs.
Proof.
  intros Hc Hall.
  assert (Hin : In c (categoriesOf (transformed_df_csv files))) by (apply dataCategories_In, Hc).
  unfold categoriesOf in Hin. apply in_flat_map in Hin. destruct Hin as [r [Hr Hcr]].
  assert (Hne : c <> "").
  { pose proof (parsePseudoList_clean (CRIME_CATEGORIES r)) as Hclean.
    rewrite Forall_forall in Hclean. apply (Hclean c Hcr). }
  pose proof (filterLocations_count _ _ c (processData_people files) Hne Hall) as Hcount.
  rewrite filter_persons in Hcount.
  assert (Hpos : 0 < List.length
                       (filter (fun r => JS.arrayIncludes (parsePseudoList (CRIME_CATEGORIES r)) c)
                               (transformed_df_csv files))).
  { assert (Hf : In r (filter (fun r => JS.arrayIncludes (parsePseudoList (CRIME_CATEGORIES r)) c)
                              (transformed_df_csv files))).
    { apply filter_In. split; [exact Hr | apply existsb_eqb_In, Hcr]. }
    destruct (filter _ (transformed_df_csv files)); [contradiction | simpl; lia]. }
  destruct (filterLocations (Some c) (processData files)) as [|g gs]; [|eauto].
  simpl in Hcount. lia.
Qed.

Lemma listed_category_has_results_witness :
  exists g gs, filterLocations (Some "Fraud") (processData sampleFiles) = g :: gs.
Proof.
  apply (listed_category_has_results sampleFiles "Fraud").
  - vm_compute. tauto.
  - discriminate.
Defined.

(** The category [all] of [sampleFiles] is listed, and selecting it
    returns every group unfiltered. *)
Example category_named_all :
  In "all" (dataCategories (processData sampleFiles)) /\
  filterLocations (Some "all") (processData sampleFiles) = locations (processData sampleFiles).
Proof. split; [vm_compute; tauto | reflexivity]. Qed.

(** ** Edge cases of the coordinate lookup *)







Lemma includes_empty s : JS.includes s "" = true.
Proof. destruct s; reflexivity. Qed.

(** X12. A record without an arrest location (absent or empty) does not
    go to the default coordinate when the table has entries: it takes the
    entry whose name is empty if there is one, otherwise the first entry
    of the table in property order, since the empty text occurs in every
    name; only with an empty table does it get the default. *)
Theorem blank_arrest_location (geo : JS.Obj.t Coord) (record : CsvRecord) :
  present (ARRESTED record) = false ->
  resolveCoords geo record =
  match JS.Obj.get "" geo with
  | Some coords => coords
  | None =>
      match JS.Obj.entries geo with
      | (_, coords) :: _ => coords
      | [] => defaultCoords
      end
  end.
Proof.
  intros H. unfold resolveCoords.
  assert (orEmpty (ARRESTED record) = "") as ->.
  { destruct (ARRESTED record) as [[|c s]|]; [reflexivity | discriminate | reflexivity]. }
  cbn [JS.toLowerCase JS.smap].
  destruct (JS.Obj.get "" geo); [reflexivity|].
  unfold JS.Obj.entries. destruct geo as [|[k v] geo]; [reflexivity|].
  cbn [partialMatch]. rewrite includes_empty, orb_true_r. reflexivity.
Qed.

Lemma blank_arrest_location_witness :
  resolveCoords
    [ ("dallas", {| lat := JS.parseFloat "32.7767"; lng := JS.parseFloat "-96.797" |});
      ("houston", {| lat := JS.parseFloat "29.7604"; lng := JS.parseFloat "-95.3698" |}) ]
    blankRecord =
  {| lat := JS.parseFloat "32.7767"; lng := JS.parseFloat "-96.797" |}.
Proof.
  rewrite blank_arrest_location; reflexivity.
Defined.

(** X13. An arrest location that is, up to the case of its letters, the
    trimmed name of an occurrence in the geocode text gets the
    coordinates of the last such occurrence; a partial match is not
    tried. *)
Theorem exact_name_gets_last_occurrence
    (content : string) (ms : list GeoMatch) (m : GeoMatch) (record : CsvRecord) :
  Occurrences content ms ->
  find (fun m' => String.eqb (matchKey m') (JS.toLowerCase (orEmpty (ARRESTED record))))
       (rev ms) = Some m ->
  resolveCoords (parseGeocodeLocations content) record = matchCoords m.
Proof.
  intros Hms Hfind. unfold resolveCoords.
  rewrite (parseGeocodeLocations_Occurrences _ _ Hms), get_storeMatches, Hfind.
  reflexivity.
Qed.

Lemma exact_name_gets_last_occurrence_witness :
  resolveCoords (parseGeocodeLocations (documentText sampleTable (String "010" "")))
                (recordAt "SPRINGFIELD") =
  {| lat := JS.parseFloat "40"; lng := JS.parseFloat "-90." |}.
Proof.
  apply (exact_name_gets_last_occurrence _
           (map (fun je => entryMatch (snd je)) sampleTable)
           (entryMatch (snd (nth 1 sampleTable (EmptyString, {| entryName := EmptyString;
              entryLat := {| negative := false; whole := EmptyString; fraction := None |};
              entryLng := {| negative := false; whole := EmptyString; fraction := None |} |}))))).
  - apply Occurrences_document. reflexivity.
  - reflexivity.
Defined.

(** ** The keys of the geocode table *)

Lemma lowerChar_idempotent c : JS.lowerChar (JS.lowerChar c) = JS.lowerChar c.
Proof. destruct c as [[] [] [] [] [] [] [] []]; reflexivity. Qed.

Lemma lowerChar_space c : JS.isWhiteSpace (JS.lowerChar c) = JS.isWhiteSpace c.
Proof. destruct c as [[] [] [] [] [] [] [] []]; reflexivity. Qed.

Lemma toLowerCase_idempotent s : JS.toLowerCase (JS.toLowerCase s) = JS.toLowerCase s.
Proof.
  unfold JS.toLowerCase. induction s as [|c s IH]; simpl; [reflexivity|].
  rewrite lowerChar_idempotent, IH. reflexivity.
Qed.

Lemma toLowerCase_startsClean s :
  startsClean s = true -> startsClean (JS.toLowerCase s) = true.
Proof. destruct s as [|c s]; simpl; [reflexivity|]. rewrite lowerChar_space. trivial. Qed.

Lemma toLowerCase_endsClean s :
  endsClean s = true -> endsClean (JS.toLowerCase s) = true.
Proof.
  unfold JS.toLowerCase. induction s as [|c s IH]; [reflexivity|].
  destruct s as [|d s]; [simpl; rewrite lowerChar_space; trivial|].
  intros H. apply IH in H. exact H.
Qed.

(** What the loader makes of a name. *)
Definition normalName (k : string) : Prop :=
  JS.toLowerCase k = k /\ JS.trim k = k.

Lemma matchKey_normal m : normalName (matchKey m).
Proof.
  unfold normalName, matchKey. split; [apply toLowerCase_idempotent|].
  apply trim_clean.
  - apply toLowerCase_startsClean. unfold JS.trim.
    apply trimEnd_startsClean, trimStart_startsClean.
  - apply toLowerCase_endsClean. unfold JS.trim. apply trimEnd_endsClean.
Qed.

Lemma storeMatches_keys ms locations :
  NoDup (JS.Obj.keys locations) -> Forall normalName (JS.Obj.keys locations) ->
  NoDup (JS.Obj.keys (fold_left storeMatch ms locations)) /\
  Forall normalName (JS.Obj.keys (fold_left storeMatch ms locations)).
Proof.
  revert locations. induction ms as [|m ms IH]; intros locations Hnd Hn; [auto|].
  cbn [fold_left]. apply IH; unfold storeMatch.
  - apply set_NoDup, Hnd.
  - fold (matchKey m).
    eapply Permutation_Forall; [symmetry; apply keys_set|].
    destruct (JS.Obj.get (matchKey m) locations); [exact Hn|].
    constructor; [apply matchKey_normal | exact Hn].
Qed.

(** X14. Whatever the geocode text, the table the loader returns has no
    two entries with the same name, and every name in it is in the form
    the lookup uses: lowercased (lowercasing it again changes nothing) and
    without white space at either end. *)
Theorem geocode_table_keys (content : string) :
  let table := parseGeocodeLocations content in
  NoDup (JS.Obj.keys table) /\
  Forall (fun k => JS.toLowerCase k = k /\ JS.trim k = k) (JS.Obj.keys table).
Proof.
  cbv zeta.
  destruct (Occurrences_total (S (String.length content)) content (Nat.lt_succ_diag_r _))
    as [ms Hms].
  rewrite (parseGeocodeLocations_Occurrences _ _ Hms).
  apply storeMatches_keys; constructor.
Qed.

(** ** Coordinates are numbers *)






























(** ** The mugshot address *)

(** Percent-decoding, the inverse the server applies to a request path. *)
Definition unhex (c : ascii) : nat :=
  let n := JS.code c in if n <? 58 then n - 48 else n - 55.

Fixpoint percentDecode (s : string) : string :=
  match s with
  | String "%" (String h (String l rest)) =>
      String (ascii_of_nat (unhex h * 16 + unhex l)) (percentDecode rest)
  | String c rest => String c (percentDecode rest)
  | EmptyString => EmptyString
  end.

Lemma escaped_char c :
  isUnreserved c = false ->
  ascii_of_nat (unhex (hexDigit (JS.code c / 16)) * 16 + unhex (hexDigit (JS.code c mod 16))) = c.
Proof. destruct c as [[] [] [] [] [] [] [] []]; intros H; try discriminate H; reflexivity. Qed.

Lemma unreserved_not_percent c : isUnreserved c = true -> c <> "%"%char.
Proof. intros H ->. discriminate. Qed.

Lemma percentDecode_encode s : percentDecode (encodeURIComponent s) = s.
Proof.
  induction s as [|c s IH]; [reflexivity|]. cbn [encodeURIComponent].
  destruct (isUnreserved c) eqn:E.
  - pose proof (unreserved_not_percent c E) as Hc.
    cbn [percentDecode]. rewrite IH.
    destruct c as [[] [] [] [] [] [] [] []]; try reflexivity. contradiction.
  - cbn [percentDecode]. rewrite IH, (escaped_char c E). reflexivity.
Qed.

Lemma encodeURIComponent_injective a b :
  encodeURIComponent a = encodeURIComponent b -> a = b.
Proof.
  intros H. rewrite <- (percentDecode_encode a), <- (percentDecode_encode b), H. reflexivity.
Qed.

(** The characters an encoded component is made of. *)
Definition urlSafe (c : ascii) : bool := isUnreserved c || Ascii.eqb c "%".

Lemma hexDigit_unreserved n : n < 16 -> isUnreserved (hexDigit n) = true.
Proof.
  intros H. do 16 (destruct n as [|n]; [reflexivity|]). lia.
Qed.

Lemma encodeURIComponent_safe s : JS.sforall urlSafe (encodeURIComponent s) = true.
Proof.
  induction s as [|c s IH]; [reflexivity|]. cbn [encodeURIComponent].
  destruct (isUnreserved c) eqn:E; cbn [JS.sforall].
  - unfold urlSafe at 1. rewrite E, IH. reflexivity.
  - rewrite IH. unfold urlSafe.
    rewrite !hexDigit_unreserved; [reflexivity | |].
    + apply Nat.mod_upper_bound. discriminate.
    + apply Nat.Div0.div_lt_upper_bound. unfold JS.code.
      pose proof (nat_ascii_bounded c). lia.
Qed.

Lemma encodeURIComponent_plain s :
  JS.sforall isUnreserved s = true -> encodeURIComponent s = s.
Proof.
  induction s as [|c s IH]; [reflexivity|]. cbn [JS.sforall encodeURIComponent].
  intros H. apply andb_prop in H. destruct H as [Hc Hs]. rewrite Hc, (IH Hs). reflexivity.
Qed.

Definition notSlash (c : ascii) : bool := negb (Ascii.eqb c "/").

Lemma includes_slash s : JS.includes s "/" = negb (JS.sforall notSlash s).
Proof.
  induction s as [|c s IH]; [reflexivity|].
  cbn [JS.includes JS.sforall]. rewrite IH.
  unfold JS.startsWith. cbn [JS.stripPrefix].
  assert (notSlash c = negb (Ascii.eqb "/" c)) as ->
    by (unfold notSlash; rewrite Ascii.eqb_sym; reflexivity).
  destruct (Ascii.eqb "/" c); reflexivity.
Qed.

Lemma afterLastSlash_no_slash p : JS.sforall notSlash (afterLastSlash p) = true.
Proof.
  induction p as [|c p IH]; [reflexivity|]. cbn [afterLastSlash].
  rewrite includes_slash. destruct (JS.sforall notSlash p) eqn:E; cbn [negb]; [|exact IH].
  destruct (Ascii.eqb c "/") eqn:Ec; [exact E|].
  cbn [JS.sforall]. unfold notSlash at 1. rewrite Ec, E. reflexivity.
Qed.

Lemma basename_no_slash p : JS.sforall notSlash (basename p) = true.
Proof. apply afterLastSlash_no_slash. Qed.

Lemma dropTrailingSlashes_file s :
  JS.sforall notSlash s = true -> s <> "" -> forall dir,
  dropTrailingSlashes (dir ++ s) = (dir ++ s)%string.
Proof.
  intros Hs Hne.
  assert (Hself : dropTrailingSlashes s = s).
  { clear Hne. induction s as [|c s IH]; [reflexivity|].
    cbn [JS.sforall] in Hs. apply andb_prop in Hs. destruct Hs as [Hc Hs].
    cbn [dropTrailingSlashes]. rewrite (IH Hs).
    destruct s; [|reflexivity]. unfold notSlash in Hc.
    apply negb_true_iff in Hc. rewrite Hc. reflexivity. }
  induction dir as [|d dir IH]; [exact Hself|].
  cbn [append dropTrailingSlashes]. rewrite IH.
  destruct (dir ++ s)%string eqn:E; [|reflexivity].
  destruct dir; [simpl in E; contradiction | discriminate].
Qed.

Lemma afterLastSlash_file dir file :
  JS.sforall notSlash file = true ->
  afterLastSlash (dir ++ String "/" file) = file.
Proof.
  intros Hf. induction dir as [|d dir IH]; cbn [append afterLastSlash].
  - rewrite includes_slash, Hf. cbn [negb]. rewrite Ascii.eqb_refl. reflexivity.
  - rewrite includes_slash, sforall_app. cbn [JS.sforall].
    unfold notSlash at 2. rewrite Ascii.eqb_refl. cbn [negb andb].
    rewrite andb_false_r. cbn [negb]. exact IH.
Qed.

Lemma basename_file dir file :
  JS.sforall notSlash file = true -> file <> "" ->
  basename (dir ++ String "/" file) = file.
Proof.
  intros Hf Hne. unfold basename.
  change (dir ++ String "/" file)%string with (dir ++ "/" ++ file)%string.
  rewrite <- sappend_assoc, (dropTrailingSlashes_file file Hf Hne), sappend_assoc.
  apply afterLastSlash_file, Hf.
Qed.

(** X16. The mugshot address of a person is empty exactly when the
    record has no picture path.  Otherwise it is [/mugshots/] followed by
    the encoded file name (the part of the path after its last slash):
    what follows the prefix consists of letters, digits, [-_.!~*'()] and
    percent escapes only, so it has no slash, question mark or hash; two
    paths give the same address exactly when they have the same file
    name, whatever their directories. *)
Theorem mugshot_address (record : CsvRecord) :
  (present (PICTURE_LOCAL record) = false -> mugshot (mkPerson record) = "") /\
  (forall path,
      PICTURE_LOCAL record = Some path -> path <> "" ->
      mugshot (mkPerson record) = ("/mugshots/" ++ encodeURIComponent (basename path))%string /\
      JS.sforall urlSafe (encodeURIComponent (basename path)) = true /\
      (forall dir file,
          path = (dir ++ String "/" file)%string ->
          JS.sforall notSlash file = true -> file <> "" ->
          mugshot (mkPerson record) = ("/mugshots/" ++ encodeURIComponent file)%string) /\
      (forall record' path',
          PICTURE_LOCAL record' = Some path' -> path' <> "" ->
          (mugshot (mkPerson record') = mugshot (mkPerson record) <->
           basename path' = basename path))).
Proof.
  assert (Hm : forall r p, PICTURE_LOCAL r = Some p -> p <> "" ->
               mugshot (mkPerson r) = ("/mugshots/" ++ encodeURIComponent (basename p))%string).
  { intros r p E Hp. cbn [mkPerson mugshot]. unfold mugshotPath. rewrite E.
    destruct p; [contradiction | reflexivity]. }
  split.
  - intros H. cbn [mkPerson mugshot]. unfold mugshotPath. rewrite H. reflexivity.
  - intros path E Hp. split; [apply Hm; assumption|].
    split; [apply encodeURIComponent_safe|]. split.
    + intros dir file -> Hf Hne. rewrite (Hm _ _ E Hp), (basename_file _ _ Hf Hne).
      reflexivity.
    + intros record' path' E' Hp'. rewrite (Hm _ _ E Hp), (Hm _ _ E' Hp'). split.
      * intros H. cbn [append] in H. injection H as H.
        apply encodeURIComponent_injective, H.
      * intros ->. reflexivity.
Qed.

Definition recordWithPicture (path : string) : CsvRecord :=
  {| ARRESTED := None; CRIME_CATEGORIES := None; CONVICTED_OF := None;
     PICTURE_LOCAL := Some path; ID := None; NAME := None; COUNTRY := None;
     GANG_AFFILIATION := None; DEEPFACE_age := None;
     DEEPFACE_gender_dominant := None; DEEPFACE_race_dominant := None;
     DEEPFACE_emotion_dominant := None |}.

Lemma mugshot_address_witness :
  mugshot (mkPerson (recordWithPicture "output/mug shots/John Doe #1.jpg"))
  = "/mugshots/John%20Doe%20%231.jpg".
Proof.
  destruct (proj2 (mugshot_address (recordWithPicture "output/mug shots/John Doe #1.jpg"))
              "output/mug shots/John Doe #1.jpg" eq_refl ltac:(discriminate))
    as [_ [_ [Hfile _]]].
  rewrite (Hfile "output/mug shots" "John Doe #1.jpg" eq_refl eq_refl ltac:(discriminate)).
  reflexivity.
Defined.

(** * Properties of the map client *)







Example escapeHtml_examples :
  escapeHtml (Some "<b>Tom & Jerry</b>") = "&lt;b&gt;Tom &amp; Jerry&lt;/b&gt;" /\
  escapeHtml (Some "O'Neil") = "O'Neil" /\
  escapeHtml None = "".
Proof. repeat split. Qed.

(** X18. [loadLocations] asks for [/api/locations] without a query for
    the category [all] and with the encoded category otherwise; the
    encoded part consists of letters, digits, [-_.!~*'()] and percent
    escapes only, so the query has the one parameter, and different
    categories are fetched from different addresses. *)
Theorem locationsUrl_shape :
  locationsUrl "all" = "/api/locations" /\
  (forall c, c <> "all" ->
     exists q, locationsUrl c = ("/api/locations?category=" ++ q)%string /\
               JS.sforall urlSafe q = true) /\
  (forall a b, locationsUrl a = locationsUrl b -> a = b).
Proof.
  split; [reflexivity|]. split.
  - intros c Hc. exists (encodeURIComponent c). unfold locationsUrl.
    apply String.eqb_neq in Hc. rewrite Hc. split; [reflexivity | apply encodeURIComponent_safe].
  - intros a b. unfold locationsUrl.
    destruct (String.eqb_spec a "all") as [->|Ha], (String.eqb_spec b "all") as [->|Hb];
      intros H; try reflexivity; try discriminate H.
    cbn [append] in H. injection H as H. apply encodeURIComponent_injective, H.
Qed.

(** * Ties in the rankings *)







(** Without the proviso the order differs: a category spelled [7] is met
    last and listed first among those that occur once. *)
Example index_like_category_goes_first :
  map fst (topCategories (stats (processData
    {| geocode_locations_txt := "";
       transformed_df_csv := [recordOf "x" "['Theft', '7']"] |}))) = ["7"; "Theft"].
Proof. vm_compute. reflexivity. Qed.
